(** * fireshape: inner products and Riesz maps (fireshape/innerproduct.py)

    A shallow embedding of the class family [InnerProduct], [H1InnerProduct],
    [LaplaceInnerProduct] and [ElasticityInnerProduct].

    - Real numbers (Python floats, PETSc scalars) are exact rationals [Qc].
    - UFL expressions and forms are kept as syntax, as the source builds
      them; a pointwise semantics gives the integrand of a form.
    - A PETSc [Mat] is a sized table of entries together with the values
      cached by [setValue] until [assemble] is called.
    - The instance ([self]), the vectors behind the control vectors and the
      sequence of calls into Firedrake/PETSc live in a [World] that is
      threaded through a state-and-exception monad: an exception keeps the
      mutations made before it was raised, as in Python.
    - Firedrake and PETSc routines whose result is not determined by this
      file (assembly, variational solve, linear solves, factorisation) are
      the fields of a [Backend]. *)

From Stdlib Require Import QArith Qcanon.
From stdpp Require Import gmap strings list numbers.

Local Open Scope Qc_scope.
Set Warnings "-register-all".

(** ** Exceptions *)

Inductive exn : Type :=
| ValueError            (* list.remove(x): x not in list *)
| NotImplementedError   (* raised by the dimension guards *)
| AttributeError        (* attribute read before get_impl has set it *)
| PETScError            (* size mismatch or unassembled matrix *)
| ConvergenceError      (* a solve or a factorisation failed *)
| AssemblyError.        (* the form assembler rejected its input *)

Inductive result (A : Type) : Type :=
| Ok (a : A)
| Raise (e : exn).
Arguments Ok {A} a.
Arguments Raise {A} e.

(** ** Finite sums and vectors *)

Fixpoint sum_upto (n : nat) (f : nat → Qc) : Qc :=
  match n with
  | O => 0
  | S k => sum_upto k f + f k
  end.

Abbreviation Vec := (list Qc).

Definition vget (u : Vec) (i : nat) : Qc := nth i u 0.

(** [vvec.dot(w)]: PETSc refuses vectors of different sizes. *)
Definition dot (v w : Vec) : result Qc :=
  if bool_decide (length v = length w)
  then Ok (sum_upto (length v) (λ i, vget v i * vget w i))
  else Raise PETScError.

(** Sum of squares; [np.linalg.norm(vals)] is its square root. *)
Definition norm_sq (vals : Vec) : Qc :=
  fold_right (λ x s, x * x + s) 0 vals.

(** [np.linalg.norm(vals) < tol], for [0 <= tol], stated without the
    square root: sqrt s < tol iff s < tol * tol. *)
Definition norm_lt (vals : Vec) (tol : Qc) : bool :=
  bool_decide (norm_sq vals < tol * tol).

(** ** PETSc matrices *)

Record Mat : Type := mkMat {
  nrows : nat;
  ncols : nat;
  entry : nat → nat → Qc;
  stash : list (nat * nat * Qc)   (* values set since the last assemble *)
}.

Definition assembled (M : Mat) : bool :=
  match stash M with [] => true | _ => false end.

Definition upd (e : nat → nat → Qc) (r c : nat) (v : Qc) : nat → nat → Qc :=
  λ i j, if bool_decide (i = r ∧ j = c) then v else e i j.

(** [M.setValue(r, c, v)] with the default insert mode. *)
Definition setValue (M : Mat) (r c : nat) (v : Qc) : Mat :=
  {| nrows := nrows M; ncols := ncols M; entry := entry M;
     stash := stash M ++ [(r, c, v)] |}.

(** [M.assemble()]: the cached values are written, in order. *)
Definition mat_assemble (M : Mat) : Mat :=
  {| nrows := nrows M; ncols := ncols M;
     entry := fold_left (λ e '(r, c, v), upd e r c v) (stash M) (entry M);
     stash := [] |}.

(** [M.getRow(row)] returns the columns and the values of the row. *)
Definition getRow (M : Mat) (row : nat) : list nat * Vec :=
  (seq 0 (ncols M), map (entry M row) (seq 0 (ncols M))).

(** [M.createVecLeft()] *)
Definition createVecLeft (M : Mat) : Vec := repeat 0 (nrows M).

(** [M.mult(u, y)]: the product M u. *)
Definition mult (M : Mat) (u : Vec) : result Vec :=
  if assembled M && bool_decide (length u = ncols M)
  then Ok (map (λ i, sum_upto (ncols M) (λ j, entry M i j * vget u j))
               (seq 0 (nrows M)))
  else Raise PETScError.

(** [A.PtAP(P)]: the product transpose(P) A P. *)
Definition PtAP (A P : Mat) : result Mat :=
  if assembled A && assembled P
     && bool_decide (nrows A = ncols A) && bool_decide (nrows P = ncols A)
  then Ok {| nrows := ncols P; ncols := ncols P;
             entry := λ i j, sum_upto (nrows A) (λ k,
                        sum_upto (ncols A) (λ l,
                          entry P k i * entry A k l * entry P l j));
             stash := [] |}
  else Raise PETScError.

(** ** Meshes, function spaces, UFL *)

Record Mesh : Type := mkMesh {
  (* mesh.topology.exterior_facets.unique_markers *)
  unique_markers : list Z
}.

Record FunctionSpace : Type := mkFunctionSpace {
  mesh : Mesh;
  family : string;
  degree : nat;
  value_size : nat
}.

Inductive Expr : Type :=
| Num (q : Qc)                          (* a Python number: 0, 1, 10 *)
| Constant (q : Qc)                     (* fd.Constant(1.0) *)
| ConstantVec (qs : list Qc)            (* fd.Constant((0, 0)) *)
| Coord (i : nat)                       (* X[i], X = fd.SpatialCoordinate *)
| Neg (e : Expr)                        (* -e *)
| as_vector (es : list Expr)
| TrialFunction (V : FunctionSpace)
| TestFunction (V : FunctionSpace)
| Coefficient (W : FunctionSpace) (dofs : Vec)   (* a solved fd.Function *)
| grad (e : Expr)
| sym (e : Expr)
| inner (e1 e2 : Expr)
| Mul (e1 e2 : Expr).

Inductive Form : Type :=
| dx (e : Expr)                         (* e * fd.dx *)
| FormAdd (a b : Form).                 (* a + b *)

(** [fd.Function(V).interpolate(e)] *)
Record Function : Type := interpolate {
  function_space : FunctionSpace;
  fn_expr : Expr
}.

Record DirichletBC : Type := mkDirichletBC {
  bc_space : FunctionSpace;
  bc_value : Expr;
  bc_ids : list Z
}.

(** [fd.VectorSpaceBasis(vecs)]; [orthonormalize()] works in place. *)
Record VectorSpaceBasis : Type := mkVectorSpaceBasis {
  vsb_vecs : list Function;
  vsb_orthonormalized : bool
}.

Definition orthonormalize (b : VectorSpaceBasis) : VectorSpaceBasis :=
  {| vsb_vecs := vsb_vecs b; vsb_orthonormalized := true |}.

(** ** Solver handles *)

Inductive ParamValue : Type :=
| PNum (q : Qc)
| PStr (s : string).

Record LinearSolver : Type := mkLinearSolver {
  ls_A : Mat;
  ls_solver_parameters : list (string * ParamValue);
  ls_nullspace : option VectorSpaceBasis;
  ls_transpose_nullspace : option VectorSpaceBasis
}.

Record KSP : Type := mkKSP {
  ksp_operators : option Mat;
  ksp_type : string;
  pc_type : string;
  pc_factor_solver_type : string;
  ksp_is_set_up : bool
}.

(** ** The routines of Firedrake and PETSc that are not modelled here *)

Record Backend : Type := mkBackend {
  (* fd.assemble(a, mat_type='aij', bcs=bc).petscmat *)
  fd_assemble : Form → option DirichletBC → result Mat;
  (* fd.solve(a == b, mu, bcs=bcs): the degrees of freedom of mu *)
  fd_solve : Form → Form → list DirichletBC → result Vec;
  (* ls.solve(x, b): the new content of x *)
  ls_solve : LinearSolver → Vec → result Vec;
  (* Aksp.setUp(): the factorisation may fail *)
  ksp_setUp : KSP → result unit;
  (* Aksp.solve(b, x): the new content of x *)
  ksp_solve : KSP → Vec → result Vec;
  (* the PETSc options database read by setFromOptions *)
  petsc_options : list (string * string)
}.

(** ** The instance, the world and the monad *)

Inductive Kind : Type := H1InnerProduct | LaplaceInnerProduct | ElasticityInnerProduct.

(** The attributes of [self]; those set by [get_impl] are absent before. *)
Record InnerProduct : Type := mkInnerProduct {
  kind : Kind;
  self_fixed_bids : list Z;
  self_params : list (string * ParamValue);
  self_free_bids : option (list Z);
  self_ls : option LinearSolver;
  self_A : option Mat;
  self_interpolated : option bool;
  self_Aksp : option KSP
}.

Inductive Event : Type :=
| EvAssemble (a : Form) (bc : option DirichletBC)
| EvVariationalSolve (a b : Form) (bcs : list DirichletBC)
| EvOrthonormalize
| EvLinearSolver
| EvPtAP
| EvSetValue (r c : nat) (v : Qc)
| EvMatAssemble
| EvKSPSetUp
| EvMult
| EvLSSolve
| EvKSPSolve.

Abbreviation loc := positive.

Record World : Type := mkWorld {
  self : InnerProduct;
  heap : gmap loc Vec;       (* the data of the vectors and functions *)
  trace : list Event         (* calls into Firedrake and PETSc, oldest first *)
}.

Definition M (A : Type) : Type := World → result A * World.

Definition ret {A} (a : A) : M A := λ w, (Ok a, w).

Definition bind {A B} (m : M A) (k : A → M B) : M B :=
  λ w, match m w with
       | (Ok a, w') => k a w'
       | (Raise e, w') => (Raise e, w')
       end.

Notation "'let*' x ':=' m 'in' k" := (bind m (λ x, k))
  (at level 10, x name, m at level 100, k at level 200).

Definition raise {A} (e : exn) : M A := λ w, (Raise e, w).

Definition lift {A} (r : result A) : M A := λ w, (r, w).

Definition log (ev : Event) : M unit :=
  λ w, (Ok tt, {| self := self w; heap := heap w; trace := trace w ++ [ev] |}).

(** A call into the library: recorded, then its outcome. *)
Definition call {A} (ev : Event) (r : result A) : M A :=
  let* _ := log ev in lift r.

Definition getattr {A} (f : InnerProduct → option A) : M A :=
  λ w, match f (self w) with
       | Some a => (Ok a, w)
       | None => (Raise AttributeError, w)
       end.

(** Reading an attribute that __init__ has set. *)
Definition read_self {A} (f : InnerProduct → A) : M A :=
  λ w, (Ok (f (self w)), w).

Definition setattr (f : InnerProduct → InnerProduct) : M unit :=
  λ w, (Ok tt, {| self := f (self w); heap := heap w; trace := trace w |}).

Definition set_free_bids (l : list Z) (s : InnerProduct) : InnerProduct :=
  {| kind := kind s; self_fixed_bids := self_fixed_bids s;
     self_params := self_params s; self_free_bids := Some l;
     self_ls := self_ls s; self_A := self_A s;
     self_interpolated := self_interpolated s; self_Aksp := self_Aksp s |}.

Definition set_ls (x : LinearSolver) (s : InnerProduct) : InnerProduct :=
  {| kind := kind s; self_fixed_bids := self_fixed_bids s;
     self_params := self_params s; self_free_bids := self_free_bids s;
     self_ls := Some x; self_A := self_A s;
     self_interpolated := self_interpolated s; self_Aksp := self_Aksp s |}.

Definition set_A (x : Mat) (s : InnerProduct) : InnerProduct :=
  {| kind := kind s; self_fixed_bids := self_fixed_bids s;
     self_params := self_params s; self_free_bids := self_free_bids s;
     self_ls := self_ls s; self_A := Some x;
     self_interpolated := self_interpolated s; self_Aksp := self_Aksp s |}.

Definition set_interpolated (x : bool) (s : InnerProduct) : InnerProduct :=
  {| kind := kind s; self_fixed_bids := self_fixed_bids s;
     self_params := self_params s; self_free_bids := self_free_bids s;
     self_ls := self_ls s; self_A := self_A s;
     self_interpolated := Some x; self_Aksp := self_Aksp s |}.

Definition set_Aksp (x : KSP) (s : InnerProduct) : InnerProduct :=
  {| kind := kind s; self_fixed_bids := self_fixed_bids s;
     self_params := self_params s; self_free_bids := self_free_bids s;
     self_ls := self_ls s; self_A := self_A s;
     self_interpolated := self_interpolated s; self_Aksp := Some x |}.

Fixpoint for_each {A} (l : list A) (body : A → M unit) : M unit :=
  match l with
  | [] => ret tt
  | x :: t => let* _ := body x in for_each t body
  end.

(** Vectors are reached through references; [vec_ro], [vec_wo] and [fun]
    of one control vector are views of the same data. *)
Definition vec_ro (l : loc) : M Vec :=
  λ w, match heap w !! l with
       | Some x => (Ok x, w)
       | None => (Raise AttributeError, w)
       end.

Definition vec_wo (l : loc) (x : Vec) : M unit :=
  λ w, match heap w !! l with
       | Some _ => (Ok tt, {| self := self w; heap := <[l := x]> (heap w);
                              trace := trace w |})
       | None => (Raise AttributeError, w)
       end.

Definition new_vec (x : Vec) : M loc :=
  λ w, let l := fresh (dom (heap w)) in
       (Ok l, {| self := self w; heap := <[l := x]> (heap w);
                 trace := trace w |}).

(** ** InnerProduct.__init__ and get_params (innerproduct.py, lines 10-23) *)

Definition tol (n : positive) : Qc := Q2Qc (1 # (10 ^ n)).

Definition get_params : list (string * ParamValue) :=
  [ ("ksp_rtol", PNum (tol 11));
    ("ksp_atol", PNum (tol 11));
    ("ksp_stol", PNum (tol 16));
    ("ksp_type", PStr "cg");
    ("pc_type", PStr "hypre");
    ("pc_hypre_type", PStr "boomeramg") ].

Definition init (k : Kind) (fixed_bids : list Z) : InnerProduct :=
  {| kind := k; self_fixed_bids := fixed_bids; self_params := get_params;
     self_free_bids := None; self_ls := None; self_A := None;
     self_interpolated := None; self_Aksp := None |}.

(** ** list.remove: the first occurrence goes, ValueError if there is none *)

Fixpoint list_remove (x : Z) (l : list Z) : result (list Z) :=
  match l with
  | [] => Raise ValueError
  | y :: t =>
      if bool_decide (y = x) then Ok t
      else match list_remove x t with
           | Ok t' => Ok (y :: t')
           | Raise e => Raise e
           end
  end.

(** ** The weak forms and the nullspaces of the three models
       (innerproduct.py, lines 132-220) *)

Definition H1_weak_form (V : FunctionSpace) : Form :=
  let u := TrialFunction V in
  let v := TestFunction V in
  FormAdd (dx (inner (grad u) (grad v))) (dx (inner u v)).

Definition H1_nullspace (V : FunctionSpace) : result (option (list Function)) :=
  Ok None.

Definition Laplace_weak_form (V : FunctionSpace) : Form :=
  let u := TrialFunction V in
  let v := TestFunction V in
  dx (inner (grad u) (grad v)).

Definition Laplace_nullspace (V : FunctionSpace)
  : result (option (list Function)) :=
  let dim := value_size V in
  if bool_decide (dim = 2%nat) then
    let n1 := interpolate V (ConstantVec [1; 0]) in
    let n2 := interpolate V (ConstantVec [0; 1]) in
    Ok (Some [n1; n2])
  else if bool_decide (dim = 3%nat) then
    let n1 := interpolate V (ConstantVec [1; 0; 0]) in
    let n2 := interpolate V (ConstantVec [0; 1; 0]) in
    let n3 := interpolate V (ConstantVec [0; 0; 1]) in
    Ok (Some [n1; n2; n3])
  else Raise NotImplementedError.

Definition Elasticity_form (V : FunctionSpace) (mu : Expr) : Form :=
  let u := TrialFunction V in
  let v := TestFunction V in
  dx (Mul mu (inner (sym (grad u)) (sym (grad v)))).

Definition Elasticity_nullspace (V : FunctionSpace)
  : result (option (list Function)) :=
  let X := Coord in
  let dim := value_size V in
  if bool_decide (dim = 2%nat) then
    let n1 := interpolate V (ConstantVec [1; 0]) in
    let n2 := interpolate V (ConstantVec [0; 1]) in
    let n3 := interpolate V (as_vector [X 1%nat; Neg (X 0%nat)]) in
    Ok (Some [n1; n2; n3])
  else if bool_decide (dim = 3%nat) then
    let n1 := interpolate V (ConstantVec [1; 0; 0]) in
    let n2 := interpolate V (ConstantVec [0; 1; 0]) in
    let n3 := interpolate V (ConstantVec [0; 0; 1]) in
    let n4 := interpolate V (as_vector [Neg (X 1%nat); X 0%nat; Num 0]) in
    let n5 := interpolate V (as_vector [Neg (X 2%nat); Num 0; X 0%nat]) in
    let n6 := interpolate V (as_vector [Num 0; X 2%nat; X 1%nat]) in
    Ok (Some [n1; n2; n3; n4; n5; n6])
  else Raise NotImplementedError.

Definition get_nullspace (k : Kind) (V : FunctionSpace)
  : result (option (list Function)) :=
  match k with
  | H1InnerProduct => H1_nullspace V
  | LaplaceInnerProduct => Laplace_nullspace V
  | ElasticityInnerProduct => Elasticity_nullspace V
  end.

(** ** KSP set-up *)

Definition KSP_create : KSP :=
  {| ksp_operators := None; ksp_type := "gmres"; pc_type := "ilu";
     pc_factor_solver_type := "petsc"; ksp_is_set_up := false |}.

Definition setOperators (k : KSP) (A : Mat) : KSP :=
  {| ksp_operators := Some A; ksp_type := ksp_type k; pc_type := pc_type k;
     pc_factor_solver_type := pc_factor_solver_type k;
     ksp_is_set_up := ksp_is_set_up k |}.

Definition setType (k : KSP) (t : string) : KSP :=
  {| ksp_operators := ksp_operators k; ksp_type := t; pc_type := pc_type k;
     pc_factor_solver_type := pc_factor_solver_type k;
     ksp_is_set_up := ksp_is_set_up k |}.

Definition pc_setType (k : KSP) (t : string) : KSP :=
  {| ksp_operators := ksp_operators k; ksp_type := ksp_type k; pc_type := t;
     pc_factor_solver_type := pc_factor_solver_type k;
     ksp_is_set_up := ksp_is_set_up k |}.

Definition pc_setFactorSolverType (k : KSP) (t : string) : KSP :=
  {| ksp_operators := ksp_operators k; ksp_type := ksp_type k;
     pc_type := pc_type k; pc_factor_solver_type := t;
     ksp_is_set_up := ksp_is_set_up k |}.

Fixpoint option_of (key : string) (opts : list (string * string))
  : option string :=
  match opts with
  | [] => None
  | (k, v) :: t => if bool_decide (k = key) then Some v else option_of key t
  end.

(** [Aksp.setFromOptions()]: the options database may override the types;
    it does not touch the operators. *)
Definition setFromOptions (opts : list (string * string)) (k : KSP) : KSP :=
  {| ksp_operators := ksp_operators k;
     ksp_type := default (ksp_type k) (option_of "ksp_type" opts);
     pc_type := default (pc_type k) (option_of "pc_type" opts);
     pc_factor_solver_type :=
       default (pc_factor_solver_type k)
               (option_of "pc_factor_mat_solver_type" opts);
     ksp_is_set_up := ksp_is_set_up k |}.

Definition mark_set_up (k : KSP) : KSP :=
  {| ksp_operators := ksp_operators k; ksp_type := ksp_type k;
     pc_type := pc_type k; pc_factor_solver_type := pc_factor_solver_type k;
     ksp_is_set_up := true |}.

(** The rows found by the first loop of the interpolated branch
    (lines 84-92). *)
Definition find_zero_rows (ITAI : Mat) : list nat :=
  fold_left
    (λ zero_rows row,
       let '(cols, vals) := getRow ITAI row in
       let valnorm_small := norm_lt vals (tol 13) in
       if valnorm_small then zero_rows ++ [row] else zero_rows)
    (seq 0 (nrows ITAI)) [].

(** The second loop (lines 93-94): [ITAI.setValue(row, row, 1.0)] for each
    such row. *)
Fixpoint patch_rows (ITAI : Mat) (zero_rows : list nat) : M Mat :=
  match zero_rows with
  | [] => ret ITAI
  | row :: rest =>
      let* _ := log (EvSetValue row row 1) in
      patch_rows (setValue ITAI row row 1) rest
  end.

Section Methods.

Variable B : Backend.

(** *** ElasticityInnerProduct.get_mu (lines 171-181) *)
Definition get_mu (V : FunctionSpace) : M Expr :=
  let W := mkFunctionSpace (mesh V) "CG" 1 1 in
  let* fixed_bids := read_self self_fixed_bids in
  let* free_bids := getattr self_free_bids in
  let bc_fix := mkDirichletBC W (Num 1) fixed_bids in
  let bc_free := mkDirichletBC W (Num (Q2Qc 10)) free_bids in
  let u := TrialFunction W in
  let v := TestFunction W in
  let a := dx (inner (grad u) (grad v)) in
  let b := dx (inner (Constant 0) v) in
  let* mu := call (EvVariationalSolve a b [bc_fix; bc_free])
                  (fd_solve B a b [bc_fix; bc_free]) in
  ret (Coefficient W mu).

(** *** get_weak_form, by model (lines 134-139, 147-150, 183-197) *)
Definition get_weak_form (V : FunctionSpace) : M Form :=
  let* k := read_self kind in
  match k with
  | H1InnerProduct => ret (H1_weak_form V)
  | LaplaceInnerProduct => ret (Laplace_weak_form V)
  | ElasticityInnerProduct =>
      let* fixed_bids := read_self self_fixed_bids in
      let* mu :=
        (if bool_decide (0 < length fixed_bids)%nat
         then get_mu V
         else ret (Constant 1)) in
      ret (Elasticity_form V mu)
  end.

(** *** InnerProduct.get_impl (lines 33-108) *)
Definition get_impl (V : FunctionSpace) (I : option Mat) : M unit :=
  let* _ := setattr (set_free_bids (unique_markers (mesh V))) in
  let* fixed_bids := read_self self_fixed_bids in
  let* _ := for_each fixed_bids (λ bid,
              let* free := getattr self_free_bids in
              let* free' := lift (list_remove bid free) in
              setattr (set_free_bids free')) in
  let* nsp :=
    (if bool_decide (length fixed_bids = 0%nat) then
       let* k := read_self kind in
       let* nsp_functions := lift (get_nullspace k V) in
       match nsp_functions with
       | Some fns =>
           let nsp := mkVectorSpaceBasis fns false in
           let* _ := log EvOrthonormalize in
           ret (Some (orthonormalize nsp))
       | None => ret None
       end
     else ret None) in
  let* bc :=
    (if bool_decide (0 < length fixed_bids)%nat then
       let dim := value_size V in
       let* zerovector :=
         (if bool_decide (dim = 2%nat) then ret (ConstantVec [0; 0])
          else if bool_decide (dim = 3%nat) then ret (ConstantVec [0; 0; 0])
          else raise NotImplementedError) in
       ret (Some (mkDirichletBC V zerovector fixed_bids))
     else ret None) in
  let* a := get_weak_form V in
  let* A := call (EvAssemble a bc) (fd_assemble B a bc) in
  let* params := read_self self_params in
  let* _ := log EvLinearSolver in
  let ls := mkLinearSolver A params nsp nsp in
  let* _ := setattr (set_ls ls) in
  let* _ := setattr (set_A A) in
  let* _ := setattr (set_interpolated false) in
  match I with
  | None => ret tt
  | Some P =>
      let* _ := setattr (set_interpolated true) in
      let* selfA := getattr self_A in
      let* ITAI := call EvPtAP (PtAP selfA P) in
      let zero_rows := find_zero_rows ITAI in
      let* ITAI := patch_rows ITAI zero_rows in
      let* _ := log EvMatAssemble in
      let ITAI := mat_assemble ITAI in
      let* _ := setattr (set_A ITAI) in
      let Aksp := KSP_create in
      let Aksp := setOperators Aksp ITAI in
      let Aksp := setType Aksp "preonly" in
      let Aksp := pc_setType Aksp "cholesky" in
      let Aksp := pc_setFactorSolverType Aksp "mumps" in
      let Aksp := setFromOptions (petsc_options B) Aksp in
      let* _ := call EvKSPSetUp (ksp_setUp B Aksp) in
      setattr (set_Aksp (mark_set_up Aksp))
  end.

(** *** InnerProduct.eval (lines 110-116) *)
Definition eval (u v : loc) : M Qc :=
  let* A := getattr self_A in
  let* A_u := new_vec (createVecLeft A) in
  let* uvec := vec_ro u in
  let* vvec := vec_ro v in
  let* y := call EvMult (mult A uvec) in
  let* _ := vec_wo A_u y in
  let* A_u_vec := vec_ro A_u in
  lift (dot vvec A_u_vec).

(** *** InnerProduct.riesz_map (lines 118-129) *)
Definition riesz_map (v out : loc) : M unit :=
  let* interpolated := getattr self_interpolated in
  if (interpolated : bool) then
    let* Aksp := getattr self_Aksp in
    let* b := vec_ro v in
    let* x := call EvKSPSolve (ksp_solve B Aksp b) in
    vec_wo out x
  else
    let* ls := getattr self_ls in
    let* b := vec_ro v in
    let* x := call EvLSSolve (ls_solve B ls b) in
    vec_wo out x.

End Methods.

(** ** Pointwise meaning of the forms

    The value at one point of the integrand of a form, given the values and
    the gradients there of the trial and the test function. The quadrature
    that turns integrands into matrix entries belongs to the assembler. *)

Inductive Tensor : Type :=
| TScalar (q : Qc)
| TVector (x : nat → Qc)
| TMatrix (m : nat → nat → Qc).

Record Point : Type := mkPoint {
  pt_dim : nat;                          (* number of components *)
  pt_X : nat → Qc;                       (* the spatial coordinate *)
  pt_coef : FunctionSpace → Vec → Qc     (* value of a solved function *)
}.

Record Arguments_at : Type := mkArgs {
  at_u : nat → Qc;
  at_grad_u : nat → nat → Qc;
  at_v : nat → Qc;
  at_grad_v : nat → nat → Qc
}.

Definition half : Qc := Q2Qc (1 # 2).

Definition tensor_inner (d : nat) (s t : Tensor) : option Qc :=
  match s, t with
  | TScalar a, TScalar b => Some (a * b)
  | TVector x, TVector y => Some (sum_upto d (λ i, x i * y i))
  | TMatrix m, TMatrix n =>
      Some (sum_upto d (λ i, sum_upto d (λ j, m i j * n i j)))
  | _, _ => None
  end.

Fixpoint eval_expr (p : Point) (a : Arguments_at) (e : Expr) : option Tensor :=
  match e with
  | Num q => Some (TScalar q)
  | Constant q => Some (TScalar q)
  | ConstantVec qs => Some (TVector (vget qs))
  | Coord i => Some (TScalar (pt_X p i))
  | Neg e1 =>
      match eval_expr p a e1 with
      | Some (TScalar q) => Some (TScalar (- q))
      | Some (TVector x) => Some (TVector (λ i, - x i))
      | Some (TMatrix m) => Some (TMatrix (λ i j, - m i j))
      | None => None
      end
  | as_vector es =>
      let fix components (es : list Expr) : option (list Qc) :=
        match es with
        | [] => Some []
        | e1 :: rest =>
            match eval_expr p a e1, components rest with
            | Some (TScalar q), Some qs => Some (q :: qs)
            | _, _ => None
            end
        end in
      match components es with
      | Some qs => Some (TVector (vget qs))
      | None => None
      end
  | TrialFunction _ => Some (TVector (at_u a))
  | TestFunction _ => Some (TVector (at_v a))
  | Coefficient W dofs => Some (TScalar (pt_coef p W dofs))
  | grad (TrialFunction _) => Some (TMatrix (at_grad_u a))
  | grad (TestFunction _) => Some (TMatrix (at_grad_v a))
  | grad _ => None
  | sym e1 =>
      match eval_expr p a e1 with
      | Some (TMatrix m) => Some (TMatrix (λ i j, half * (m i j + m j i)))
      | _ => None
      end
  | inner e1 e2 =>
      match eval_expr p a e1, eval_expr p a e2 with
      | Some s, Some t => TScalar <$> tensor_inner (pt_dim p) s t
      | _, _ => None
      end
  | Mul e1 e2 =>
      match eval_expr p a e1, eval_expr p a e2 with
      | Some (TScalar x), Some (TScalar y) => Some (TScalar (x * y))
      | _, _ => None
      end
  end.

Fixpoint integrand (p : Point) (a : Arguments_at) (f : Form) : option Qc :=
  match f with
  | dx e =>
      match eval_expr p a e with
      | Some (TScalar q) => Some q
      | _ => None
      end
  | FormAdd f1 f2 =>
      match integrand p a f1, integrand p a f2 with
      | Some x, Some y => Some (x + y)
      | _, _ => None
      end
  end.

(** Derivative along coordinate [j] of a component of a coordinate field. *)
Fixpoint partial (j : nat) (e : Expr) : option Qc :=
  match e with
  | Num _ => Some 0
  | Constant _ => Some 0
  | Coord i => Some (if bool_decide (i = j) then 1 else 0)
  | Neg e1 => Qcopp <$> partial j e1
  | _ => None
  end.

(** Gradient of an interpolated field: entry (i, j) is d e_i / d X_j. *)
Definition field_grad (e : Expr) : option (nat → nat → Qc) :=
  match e with
  | ConstantVec _ => Some (λ _ _, 0)
  | as_vector es =>
      Some (λ i j, default 0 (es !! i ≫= partial j))
  | _ => None
  end.

Definition no_args : Arguments_at :=
  {| at_u := λ _, 0; at_grad_u := λ _ _, 0; at_v := λ _, 0;
     at_grad_v := λ _ _, 0 |}.

(** The integrand of a(n, v) at [p]: the field [n] in the place of the
    trial function, and a test function of value [v] and gradient [gv]. *)
Definition integrand_at (p : Point) (n : Function)
    (v : nat → Qc) (gv : nat → nat → Qc) (f : Form) : option Qc :=
  match eval_expr p no_args (fn_expr n), field_grad (fn_expr n) with
  | Some (TVector u), Some gu =>
      integrand p {| at_u := u; at_grad_u := gu; at_v := v; at_grad_v := gv |} f
  | _, _ => None
  end.

(** ** Predicates used in the statements *)

Definition mat_symmetric (A : Mat) : Prop :=
  nrows A = ncols A
  ∧ ∀ i j, (i < nrows A)%nat → (j < nrows A)%nat → entry A i j = entry A j i.

Definition is_variational_solve (ev : Event) : bool :=
  match ev with EvVariationalSolve _ _ _ => true | _ => false end.

(** Events that build or change an operator or a solver. *)
Definition is_setup_event (ev : Event) : bool :=
  match ev with
  | EvMult | EvLSSolve | EvKSPSolve => false
  | _ => true
  end.

(** What the loop [for bid in self.fixed_bids: self.free_bids.remove(bid)]
    leaves in the list, as a function of the two lists. *)
Fixpoint remove_each (fixed_bids free_bids : list Z) : result (list Z) :=
  match fixed_bids with
  | [] => Ok free_bids
  | bid :: rest =>
      match list_remove bid free_bids with
      | Ok free' => remove_each rest free'
      | Raise e => Raise e
      end
  end.

Definition with_self (w : World) (s : InnerProduct) : World :=
  {| self := s; heap := heap w; trace := trace w |}.

(** ** The stages of get_impl, named for the proofs *)

Definition remove_body (bid : Z) : M unit :=
  let* free := getattr self_free_bids in
  let* free' := lift (list_remove bid free) in
  setattr (set_free_bids free').

Definition stage_free_bids (V : FunctionSpace) : M (list Z) :=
  let* _ := setattr (set_free_bids (unique_markers (mesh V))) in
  let* fixed_bids := read_self self_fixed_bids in
  let* _ := for_each fixed_bids remove_body in
  ret fixed_bids.

Definition stage_nullspace (V : FunctionSpace) (fixed_bids : list Z)
  : M (option VectorSpaceBasis) :=
  if bool_decide (length fixed_bids = 0%nat) then
    let* k := read_self kind in
    let* nsp_functions := lift (get_nullspace k V) in
    match nsp_functions with
    | Some fns =>
        let nsp := mkVectorSpaceBasis fns false in
        let* _ := log EvOrthonormalize in
        ret (Some (orthonormalize nsp))
    | None => ret None
    end
  else ret None.

Definition stage_bc (V : FunctionSpace) (fixed_bids : list Z)
  : M (option DirichletBC) :=
  if bool_decide (0 < length fixed_bids)%nat then
    let dim := value_size V in
    let* zerovector :=
      (if bool_decide (dim = 2%nat) then ret (ConstantVec [0; 0])
       else if bool_decide (dim = 3%nat) then ret (ConstantVec [0; 0; 0])
       else raise NotImplementedError) in
    ret (Some (mkDirichletBC V zerovector fixed_bids))
  else ret None.

Definition stage_solver (B : Backend) (V : FunctionSpace)
    (nsp : option VectorSpaceBasis) (bc : option DirichletBC) : M unit :=
  let* a := get_weak_form B V in
  let* A := call (EvAssemble a bc) (fd_assemble B a bc) in
  let* params := read_self self_params in
  let* _ := log EvLinearSolver in
  let ls := mkLinearSolver A params nsp nsp in
  let* _ := setattr (set_ls ls) in
  let* _ := setattr (set_A A) in
  setattr (set_interpolated false).

Definition make_Aksp (B : Backend) (ITAI : Mat) : KSP :=
  let Aksp := KSP_create in
  let Aksp := setOperators Aksp ITAI in
  let Aksp := setType Aksp "preonly" in
  let Aksp := pc_setType Aksp "cholesky" in
  let Aksp := pc_setFactorSolverType Aksp "mumps" in
  setFromOptions (petsc_options B) Aksp.

Definition stage_sandwich (B : Backend) (P : Mat) : M unit :=
  let* _ := setattr (set_interpolated true) in
  let* selfA := getattr self_A in
  let* ITAI := call EvPtAP (PtAP selfA P) in
  let zero_rows := find_zero_rows ITAI in
  let* ITAI := patch_rows ITAI zero_rows in
  let* _ := log EvMatAssemble in
  let ITAI := mat_assemble ITAI in
  let* _ := setattr (set_A ITAI) in
  let* _ := call EvKSPSetUp (ksp_setUp B (make_Aksp B ITAI)) in
  setattr (set_Aksp (mark_set_up (make_Aksp B ITAI))).

Definition staged_get_impl (B : Backend) (V : FunctionSpace) (I : option Mat)
  : M unit :=
  let* fixed_bids := stage_free_bids V in
  let* nsp := stage_nullspace V fixed_bids in
  let* bc := stage_bc V fixed_bids in
  let* _ := stage_solver B V nsp bc in
  match I with
  | None => ret tt
  | Some P => stage_sandwich B P
  end.

Definition log_world (w : World) (evs : list Event) : World :=
  {| self := self w; heap := heap w; trace := trace w ++ evs |}.

(** *** The auxiliary problem of get_mu *)

Definition mu_space (V : FunctionSpace) : FunctionSpace :=
  mkFunctionSpace (mesh V) "CG" 1 1.
Definition mu_a (V : FunctionSpace) : Form :=
  dx (inner (grad (TrialFunction (mu_space V))) (grad (TestFunction (mu_space V)))).
Definition mu_b (V : FunctionSpace) : Form :=
  dx (inner (Constant 0) (TestFunction (mu_space V))).
Definition mu_bcs (V : FunctionSpace) (fixed free : list Z) : list DirichletBC :=
  [ mkDirichletBC (mu_space V) (Num 1) fixed;
    mkDirichletBC (mu_space V) (Num (Q2Qc 10)) free ].

(** *** The interpolated operator *)

(** A row whose 2-norm is below 1e-13. *)
Definition near_zero_row (J : Mat) (row : nat) : bool :=
  norm_lt (snd (getRow J row)) (tol 13).

(** The matrix after the patch loop and [assemble()]. *)
Definition patched (J : Mat) : Mat :=
  mat_assemble (fold_left (λ M r, setValue M r r 1) (find_zero_rows J) J).

Definition patch_events (J : Mat) : list Event :=
  map (λ r, EvSetValue r r 1) (find_zero_rows J).

(** *** What each stage computes, as functions of the inputs *)

Definition nullspace_of (k : Kind) (V : FunctionSpace) (fixed : list Z)
  : result (option VectorSpaceBasis) :=
  if bool_decide (fixed = []) then
    match get_nullspace k V with
    | Ok (Some fns) => Ok (Some (mkVectorSpaceBasis fns true))
    | Ok None => Ok None
    | Raise e => Raise e
    end
  else Ok None.

Definition nullspace_events (nsp : option VectorSpaceBasis) : list Event :=
  match nsp with Some _ => [EvOrthonormalize] | None => [] end.

Definition bc_of (V : FunctionSpace) (fixed : list Z)
  : result (option DirichletBC) :=
  if bool_decide (fixed = []) then Ok None
  else if bool_decide (value_size V = 2%nat)
       then Ok (Some (mkDirichletBC V (ConstantVec [0; 0]) fixed))
  else if bool_decide (value_size V = 3%nat)
       then Ok (Some (mkDirichletBC V (ConstantVec [0; 0; 0]) fixed))
  else Raise NotImplementedError.

Definition mu_events (k : Kind) (V : FunctionSpace) (fixed free : list Z)
  : list Event :=
  match k with
  | ElasticityInnerProduct =>
      if bool_decide (fixed = []) then []
      else [EvVariationalSolve (mu_a V) (mu_b V) (mu_bcs V fixed free)]
  | _ => []
  end.

Definition weak_form_of (B : Backend) (k : Kind) (V : FunctionSpace)
    (fixed free : list Z) : result Form :=
  match k with
  | H1InnerProduct => Ok (H1_weak_form V)
  | LaplaceInnerProduct => Ok (Laplace_weak_form V)
  | ElasticityInnerProduct =>
      if bool_decide (fixed = []) then Ok (Elasticity_form V (Constant 1))
      else match fd_solve B (mu_a V) (mu_b V) (mu_bcs V fixed free) with
           | Ok dofs => Ok (Elasticity_form V (Coefficient (mu_space V) dofs))
           | Raise e => Raise e
           end
  end.

(** The attributes and the trace after a successful get_impl. *)
Definition bound_self (B : Backend) (s : InnerProduct) (free : list Z)
    (nsp : option VectorSpaceBasis) (A0 : Mat) (I : option (Mat * Mat))
  : InnerProduct :=
  let s1 := set_interpolated false
              (set_A A0
                 (set_ls (mkLinearSolver A0 (self_params s) nsp nsp)
                         (set_free_bids free s))) in
  match I with
  | None => s1
  | Some (P, J) =>
      set_Aksp (mark_set_up (make_Aksp B (patched J)))
        (set_A (patched J) (set_interpolated true s1))
  end.

Definition bind_events (k : Kind) (V : FunctionSpace) (fixed free : list Z)
    (nsp : option VectorSpaceBasis) (a : Form) (bc : option DirichletBC)
    (I : option (Mat * Mat)) : list Event :=
  nullspace_events nsp ++ mu_events k V fixed free
  ++ [EvAssemble a bc; EvLinearSolver]
  ++ match I with
     | None => []
     | Some (P, J) => EvPtAP :: patch_events J ++ [EvMatAssemble; EvKSPSetUp]
     end.


(** *** eval and the bilinear form *)

(** v^T A u, as the text has it. *)
Definition vT_A_u (A : Mat) (u v : Vec) : Qc :=
  sum_upto (nrows A) (λ i,
    vget v i * sum_upto (ncols A) (λ j, entry A i j * vget u j)).

(** The value returned by eval, from the operator and the two vectors. *)
Definition eval_result (A : Mat) (U V : option Vec) : result Qc :=
  match U, V with
  | Some uvec, Some vvec =>
      match mult A uvec with
      | Ok y => dot vvec y
      | Raise e => Raise e
      end
  | _, _ => Raise AttributeError
  end.

(** The integrand of a(n, m) at [p], for two interpolated fields. *)
Definition integrand_of_fields (p : Point) (n m : Function) (f : Form)
  : option Qc :=
  match eval_expr p no_args (fn_expr m), field_grad (fn_expr m) with
  | Some (TVector v), Some gv => integrand_at p n v gv f
  | _, _ => None
  end.

#[global] Instance exn_eq_dec : EqDecision exn.
Proof. solve_decision. Defined.

#[global] Instance result_eq_dec {A} `{EqDecision A} : EqDecision (result A).
Proof. solve_decision. Defined.

(** A computation that leaves [self.free_bids] as it found it, whatever
    its outcome. *)
Definition keeps_free_bids {A} (m : M A) : Prop :=
  ∀ w r w', m w = (r, w') →
    self_free_bids (self w') = self_free_bids (self w).

(** ** A small backend: piecewise constant fields on one triangle

    The reference triangle (area 1/2, boundary edges marked 1, 2, 3) with
    one constant vector per cell: the basis functions are the unit vectors,
    their gradients vanish, and one quadrature point is exact. The linear
    solves divide by the diagonal and return the result only when it solves
    the system. *)

Fixpoint expr_space (e : Expr) : option FunctionSpace :=
  match e with
  | TrialFunction V => Some V
  | Neg e1 | grad e1 | sym e1 => expr_space e1
  | inner e1 e2 | Mul e1 e2 =>
      match expr_space e1 with
      | Some V => Some V
      | None => expr_space e2
      end
  | _ => None
  end.

Fixpoint form_space (f : Form) : option FunctionSpace :=
  match f with
  | dx e => expr_space e
  | FormAdd a b =>
      match form_space a with
      | Some V => Some V
      | None => form_space b
      end
  end.

Definition unit_vec (j : nat) : nat → Qc :=
  λ i, if bool_decide (i = j) then 1 else 0.

Definition mean (dofs : Vec) : Qc :=
  fold_right Qcplus 0 dofs / Q2Qc (Z.of_nat (length dofs) # 1).

Definition centroid (d : nat) : Point :=
  {| pt_dim := d; pt_X := λ _, Q2Qc (1 # 3); pt_coef := λ _ dofs, mean dofs |}.

Definition dg0_entry (d : nat) (a : Form) (i j : nat) : option Qc :=
  integrand (centroid d)
    {| at_u := unit_vec j; at_grad_u := λ _ _, 0;
       at_v := unit_vec i; at_grad_v := λ _ _, 0 |} a.

Definition dg0_assemble (a : Form) (bc : option DirichletBC) : result Mat :=
  match form_space a with
  | None => Raise AssemblyError
  | Some V =>
      let d := value_size V in
      match dg0_entry d a 0 0 with
      | None => Raise AssemblyError
      | Some _ =>
          Ok {| nrows := d; ncols := d;
                entry := λ i j, half * default 0 (dg0_entry d a i j);
                stash := [] |}
      end
  end.

Definition jacobi (A : Mat) (b : Vec) : Vec :=
  map (λ i, vget b i / entry A i i) (seq 0 (nrows A)).

Definition checked_solve (A : Mat) (b : Vec) : result Vec :=
  let x := jacobi A b in
  if decide (mult A x = Ok b) then Ok x else Raise ConvergenceError.

Definition dg0_backend : Backend :=
  {| fd_assemble := dg0_assemble;
     fd_solve := λ _ _ _, Ok [Q2Qc 10; Q2Qc 10; Q2Qc 10];
     ls_solve := λ ls b, checked_solve (ls_A ls) b;
     ksp_setUp := λ _, Ok tt;
     ksp_solve := λ k b,
       match ksp_operators k with
       | Some A => checked_solve A b
       | None => Raise PETScError
       end;
     petsc_options := [] |}.

Definition triangle : Mesh := mkMesh [1%Z; 2%Z; 3%Z].

Definition DG0 (d : nat) : FunctionSpace := mkFunctionSpace triangle "DG" 0 d.

(** Three control vectors: u = (2, 0), v = (0, 2) and a zero vector. *)
Definition three_vectors : gmap loc Vec :=
  <[1%positive := [Q2Qc 2; 0]]>
    (<[2%positive := [0; Q2Qc 2]]> (<[3%positive := [0; 0]]> ∅)).

Definition fresh_world (k : Kind) (fixed_bids : list Z) : World :=
  {| self := init k fixed_bids; heap := three_vectors; trace := [] |}.

Definition mat_of_rows (rows : list (list Qc)) : Mat :=
  {| nrows := length rows; ncols := length (nth 0 rows []);
     entry := λ i j, nth j (nth i rows []) 0; stash := [] |}.

Definition identity2 : Mat := mat_of_rows [[1; 0]; [0; 1]].

(** An interpolation that reaches the first control coordinate only. *)
Definition first_only : Mat := mat_of_rows [[1; 0]; [0; 0]].

(** The instance after get_impl, on the small backend. *)
Definition bound (k : Kind) (fixed_bids : list Z) (d : nat) (I : option Mat)
  : World :=
  snd (get_impl dg0_backend (DG0 d) I (fresh_world k fixed_bids)).

(** ** Further definitions used in the statements *)

(** The trial and the test function exchanged. *)
Definition swap_arguments (a : Arguments_at) : Arguments_at :=
  {| at_u := at_v a; at_grad_u := at_grad_v a;
     at_v := at_u a; at_grad_v := at_grad_u a |}.

(** Both arguments of a form taken to be one field. *)
Definition same_arguments (u : nat → Qc) (gu : nat → nat → Qc)
  : Arguments_at :=
  {| at_u := u; at_grad_u := gu; at_v := u; at_grad_v := gu |}.

(** alpha * x + y, componentwise. *)
Definition axpy (alpha : Qc) (x y : Vec) : Vec :=
  zip_with (λ xi yi, alpha * xi + yi) x y.

(** A computation that leaves the vectors as it found them, whatever its
    outcome. *)
Definition keeps_heap {A} (m : M A) : Prop :=
  ∀ w r w', m w = (r, w') → heap w' = heap w.

(** * Proofs *)

(** ** list.remove and the loop over fixed_bids *)


Lemma list_remove_Ok x l l' :
  list_remove x l = Ok l' → l ≡ₚ x :: l'.
Proof.
  revert l'. induction l as [|y t IH]; intros l' H; simpl in H; [discriminate|].
  case_bool_decide; simplify_eq.
  - done.
  - destruct (list_remove x t) as [t'|e] eqn:E; simplify_eq.
    rewrite (IH t' eq_refl). apply Permutation_swap.
Qed.

Lemma list_remove_Raise x l e :
  list_remove x l = Raise e → e = ValueError ∧ x ∉ l.
Proof.
  induction l as [|y t IH]; simpl; intros H.
  - simplify_eq. split; [done | apply not_elem_of_nil].
  - case_bool_decide; [discriminate|].
    destruct (list_remove x t) as [t'|e'] eqn:E; simplify_eq.
    destruct (IH eq_refl) as [-> Hn]. split; [done|].
    intros [?|?]%elem_of_cons; [by subst|done].
Qed.

Lemma list_remove_elem x l :
  x ∈ l → ∃ l', list_remove x l = Ok l'.
Proof.
  intros Hx. destruct (list_remove x l) as [l'|e] eqn:E; [eauto|].
  by apply list_remove_Raise in E as [_ ?].
Qed.

Lemma remove_each_Ok fixed : ∀ l free,
  remove_each fixed l = Ok free → l ≡ₚ fixed ++ free.
Proof.
  induction fixed as [|b t IH]; simpl; intros l free H.
  - by simplify_eq.
  - destruct (list_remove b l) as [l'|e] eqn:E; [|discriminate].
    apply list_remove_Ok in E. rewrite E. f_equiv. by apply IH.
Qed.

Lemma remove_each_Raise fixed : ∀ l e,
  remove_each fixed l = Raise e → e = ValueError.
Proof.
  induction fixed as [|b t IH]; simpl; intros l e H; [discriminate|].
  destruct (list_remove b l) as [l'|e'] eqn:E.
  - eauto.
  - simplify_eq. by apply list_remove_Raise in E as [-> _].
Qed.

Lemma remove_each_valid fixed : ∀ l,
  NoDup fixed → fixed ⊆ l → ∃ free, remove_each fixed l = Ok free.
Proof.
  induction fixed as [|b t IH]; simpl; intros l Hnd Hsub; [eauto|].
  inversion_clear Hnd as [|?? Hb Hnd'].
  destruct (list_remove_elem b l) as [l' E]; [set_solver|].
  rewrite E. apply IH; [done|].
  apply list_remove_Ok in E.
  intros x Hx. assert (x ∈ l) as Hxl by set_solver.
  rewrite E in Hxl. apply elem_of_cons in Hxl as [->|]; done.
Qed.

(** ** The monad *)

Lemma bind_Ok {A B} (m : M A) (k : A → M B) w b w' :
  bind m k w = (Ok b, w') → ∃ a w1, m w = (Ok a, w1) ∧ k a w1 = (Ok b, w').
Proof.
  unfold bind. destruct (m w) as [[a|e] w1]; [eauto | discriminate].
Qed.

Lemma bind_step {A B} (m : M A) (k : A → M B) w a w1 :
  m w = (Ok a, w1) → bind m k w = k a w1.
Proof. unfold bind. by intros ->. Qed.

Lemma bind_raise {A B} (m : M A) (k : A → M B) w e w1 :
  m w = (Raise e, w1) → bind m k w = (Raise e, w1).
Proof. unfold bind. by intros ->. Qed.


Lemma bind_assoc {A B C} (m : M A) (f : A → M B) (g : B → M C) w :
  bind (bind m f) g w = bind m (λ x, bind (f x) g) w.
Proof. unfold bind. by destruct (m w) as [[a|e] w1]. Qed.

Lemma bind_ext {A B} (m : M A) (f g : A → M B) w :
  (∀ a w1, f a w1 = g a w1) → bind m f w = bind m g w.
Proof. intros H. unfold bind. destruct (m w) as [[a|e] w1]; auto. Qed.

Lemma bind_ret_r {A} (m : M A) w : bind m ret w = m w.
Proof. unfold bind, ret. by destruct (m w) as [[a|e] w1]. Qed.

Lemma bind_ret_l {A B} (a : A) (k : A → M B) w : bind (ret a) k w = k a w.
Proof. reflexivity. Qed.

Lemma log_world_nil w : log_world w [] = w.
Proof. destruct w. unfold log_world. simpl. by rewrite app_nil_r. Qed.

Lemma log_world_app w evs1 evs2 :
  log_world (log_world w evs1) evs2 = log_world w (evs1 ++ evs2).
Proof. unfold log_world. simpl. by rewrite app_assoc. Qed.

Lemma log_run ev w : log ev w = (Ok tt, log_world w [ev]).
Proof. reflexivity. Qed.

Lemma call_run {A} ev (r : result A) w : call ev r w = (r, log_world w [ev]).
Proof. reflexivity. Qed.


Lemma run_pair {A} (x : result A * World) (r : result A) :
  fst x = r → x = (r, snd x).
Proof. destruct x. simpl. by intros ->. Qed.


(** ** The stages of get_impl *)

Lemma for_each_remove fixed : ∀ w free,
  self_free_bids (self w) = Some free →
  match remove_each fixed free with
  | Ok free' =>
      for_each fixed remove_body w
      = (Ok tt, with_self w (set_free_bids free' (self w)))
  | Raise _ =>
      ∃ l, for_each fixed remove_body w
           = (Raise ValueError, with_self w (set_free_bids l (self w)))
  end.
Proof.
  induction fixed as [|b t IH]; intros w free Hf.
  - simpl. unfold ret. f_equal. destruct w as [[] ? ?]; simpl in *. by subst.
  - assert (for_each (b :: t) remove_body w
            = match list_remove b free with
              | Ok free' =>
                  for_each t remove_body
                    (with_self w (set_free_bids free' (self w)))
              | Raise e => (Raise e, w)
              end) as ->.
    { simpl. unfold bind, remove_body, getattr, lift, bind. rewrite Hf.
      by destruct (list_remove b free). }
    cbn [remove_each].
    destruct (list_remove b free) as [free'|e] eqn:E.
    + specialize (IH (with_self w (set_free_bids free' (self w))) free' eq_refl).
      destruct (remove_each t free'); exact IH.
    + apply list_remove_Raise in E as [-> _]. exists free.
      f_equal. destruct w as [[] ? ?]; simpl in *. by subst.
Qed.


Lemma get_impl_staged B V I w : get_impl B V I w = staged_get_impl B V I w.
Proof.
  unfold get_impl, staged_get_impl, stage_free_bids.
  rewrite !bind_assoc. apply bind_ext; intros [] w1.
  rewrite !bind_assoc. apply bind_ext; intros fixed w2.
  rewrite !bind_assoc. apply bind_ext; intros [] w3.
  rewrite bind_ret_l.
  apply bind_ext; intros nsp w4.
  apply bind_ext; intros bc w5.
  unfold stage_solver. rewrite !bind_assoc.
  apply bind_ext; intros a w6.
  rewrite !bind_assoc. apply bind_ext; intros A w7.
  rewrite !bind_assoc. apply bind_ext; intros pa w8.
  rewrite !bind_assoc. apply bind_ext; intros [] w9.
  rewrite !bind_assoc. apply bind_ext; intros [] w10.
  rewrite !bind_assoc. apply bind_ext; intros [] w11.
  apply bind_ext; intros [] w12.
  destruct I; reflexivity.
Qed.

Lemma stage_free_bids_run V w :
  match remove_each (self_fixed_bids (self w)) (unique_markers (mesh V)) with
  | Ok free =>
      stage_free_bids V w
      = (Ok (self_fixed_bids (self w)), with_self w (set_free_bids free (self w)))
  | Raise _ =>
      ∃ l, stage_free_bids V w
           = (Raise ValueError, with_self w (set_free_bids l (self w)))
  end.
Proof.
  pose proof (for_each_remove (self_fixed_bids (self w))
    (with_self w (set_free_bids (unique_markers (mesh V)) (self w)))
    (unique_markers (mesh V)) eq_refl) as H.
  change (stage_free_bids V w)
    with (bind (for_each (self_fixed_bids (self w)) remove_body)
               (λ _, ret (self_fixed_bids (self w)))
               (with_self w (set_free_bids (unique_markers (mesh V)) (self w)))).
  destruct (remove_each _ _) as [free|e].
  - by rewrite (bind_step _ _ _ _ _ H).
  - destruct H as [l H]. exists l. by rewrite (bind_raise _ _ _ _ _ H).
Qed.

Lemma stage_nullspace_run V fixed w :
  stage_nullspace V fixed w
  = if bool_decide (fixed = []) then
      match get_nullspace (kind (self w)) V with
      | Ok (Some fns) =>
          (Ok (Some (mkVectorSpaceBasis fns true)), log_world w [EvOrthonormalize])
      | Ok None => (Ok None, w)
      | Raise e => (Raise e, w)
      end
    else (Ok None, w).
Proof.
  unfold stage_nullspace.
  destruct fixed as [|b t]; cbn [length]; repeat case_bool_decide;
    try done; try lia.
  unfold bind, lift, read_self. by destruct (get_nullspace _ _) as [[fns|]|e].
Qed.

Lemma stage_bc_run V fixed w :
  stage_bc V fixed w
  = (if bool_decide (fixed = []) then Ok None
     else if bool_decide (value_size V = 2%nat)
          then Ok (Some (mkDirichletBC V (ConstantVec [0; 0]) fixed))
     else if bool_decide (value_size V = 3%nat)
          then Ok (Some (mkDirichletBC V (ConstantVec [0; 0; 0]) fixed))
     else Raise NotImplementedError, w).
Proof.
  unfold stage_bc.
  destruct fixed as [|b t]; cbn [length]; repeat case_bool_decide;
    try done; try lia.
Qed.

Lemma get_weak_form_run B V w :
  get_weak_form B V w
  = match kind (self w) with
    | H1InnerProduct => (Ok (H1_weak_form V), w)
    | LaplaceInnerProduct => (Ok (Laplace_weak_form V), w)
    | ElasticityInnerProduct =>
        if bool_decide (self_fixed_bids (self w) = []) then
          (Ok (Elasticity_form V (Constant 1)), w)
        else
          match self_free_bids (self w) with
          | None => (Raise AttributeError, w)
          | Some free =>
              let bcs := mu_bcs V (self_fixed_bids (self w)) free in
              let w1 := log_world w [EvVariationalSolve (mu_a V) (mu_b V) bcs] in
              match fd_solve B (mu_a V) (mu_b V) bcs with
              | Ok dofs =>
                  (Ok (Elasticity_form V (Coefficient (mu_space V) dofs)), w1)
              | Raise e => (Raise e, w1)
              end
          end
    end.
Proof.
  unfold get_weak_form, bind at 1, read_self at 1.
  destruct (kind (self w)); try reflexivity.
  unfold bind at 1, read_self at 1.
  destruct (self_fixed_bids (self w)) as [|b t] eqn:Hf; cbn [length];
    repeat case_bool_decide; try done; try lia.
  unfold get_mu, bind, getattr, call, bind, log, lift, ret, read_self.
  rewrite Hf.
  destruct (self_free_bids (self w)) as [free|]; [|done].
  cbn. unfold mu_bcs, mu_a, mu_b, mu_space, log_world.
  by destruct (fd_solve B _ _ _).
Qed.

Lemma patch_rows_run rows : ∀ M w,
  patch_rows M rows w
  = (Ok (fold_left (λ M r, setValue M r r 1) rows M),
     log_world w (map (λ r, EvSetValue r r 1) rows)).
Proof.
  induction rows as [|r t IH]; intros M w; simpl.
  - unfold ret. by rewrite log_world_nil.
  - rewrite (bind_step _ _ _ _ _ (log_run _ w)). rewrite IH.
    by rewrite log_world_app.
Qed.

Lemma stage_solver_run B V nsp bc w :
  stage_solver B V nsp bc w
  = match get_weak_form B V w with
    | (Ok a, w0) =>
        match fd_assemble B a bc with
        | Ok A0 =>
            (Ok tt,
             with_self (log_world w0 [EvAssemble a bc; EvLinearSolver])
               (set_interpolated false
                  (set_A A0
                     (set_ls (mkLinearSolver A0 (self_params (self w0)) nsp nsp)
                             (self w0)))))
        | Raise e => (Raise e, log_world w0 [EvAssemble a bc])
        end
    | (Raise e, w0) => (Raise e, w0)
    end.
Proof.
  unfold stage_solver, bind at 1.
  destruct (get_weak_form B V w) as [[a|e] w0]; [|done].
  unfold call, bind, log, lift, setattr.
  destruct (fd_assemble B a bc) as [A0|e]; [|done].
  unfold with_self, log_world. cbn. by rewrite <- app_assoc.
Qed.

Lemma stage_sandwich_run B P w :
  stage_sandwich B P w
  = match self_A (self w) with
    | None => (Raise AttributeError, with_self w (set_interpolated true (self w)))
    | Some A0 =>
        match PtAP A0 P with
        | Raise e =>
            (Raise e, with_self (log_world w [EvPtAP])
                                (set_interpolated true (self w)))
        | Ok J =>
            let evs := EvPtAP :: patch_events J ++ [EvMatAssemble; EvKSPSetUp] in
            match ksp_setUp B (make_Aksp B (patched J)) with
            | Ok _ =>
                (Ok tt,
                 with_self (log_world w evs)
                   (set_Aksp (mark_set_up (make_Aksp B (patched J)))
                      (set_A (patched J) (set_interpolated true (self w)))))
            | Raise e =>
                (Raise e,
                 with_self (log_world w evs)
                   (set_A (patched J) (set_interpolated true (self w))))
            end
        end
    end.
Proof.
  unfold stage_sandwich, bind at 1, setattr at 1.
  unfold bind at 1, getattr at 1. cbn [self set_interpolated self_A].
  destruct (self_A (self w)) as [A0|]; [|done].
  unfold bind at 1, call at 1, bind at 1, log at 1, lift.
  destruct (PtAP A0 P) as [J|e]; [|done].
  unfold bind at 1. rewrite patch_rows_run.
  unfold bind at 1, log at 1. unfold bind at 1, setattr at 1.
  unfold bind at 1, call, bind, log, lift, setattr.
  fold (patched J). fold (patch_events J).
  destruct (ksp_setUp B _) as [[]|e]; unfold with_self, log_world; cbn;
    rewrite <- !app_assoc; reflexivity.
Qed.

Lemma stage_nullspace_of V fixed w :
  stage_nullspace V fixed w
  = match nullspace_of (kind (self w)) V fixed with
    | Ok nsp => (Ok nsp, log_world w (nullspace_events nsp))
    | Raise e => (Raise e, w)
    end.
Proof.
  rewrite stage_nullspace_run. unfold nullspace_of.
  case_bool_decide; [|by rewrite log_world_nil].
  destruct (get_nullspace _ _) as [[fns|]|e]; try done.
  by rewrite log_world_nil.
Qed.

Lemma get_weak_form_of B V w free :
  self_free_bids (self w) = Some free →
  get_weak_form B V w
  = (weak_form_of B (kind (self w)) V (self_fixed_bids (self w)) free,
     log_world w (mu_events (kind (self w)) V (self_fixed_bids (self w)) free)).
Proof.
  intros Hf. rewrite get_weak_form_run. unfold weak_form_of, mu_events.
  destruct (kind (self w)); try by rewrite log_world_nil.
  case_bool_decide; [by rewrite log_world_nil|].
  rewrite Hf. cbn zeta. by destruct (fd_solve B _ _ _).
Qed.

Lemma get_impl_Ok B V I w w1 :
  get_impl B V I w = (Ok tt, w1) →
  let s := self w in
  let fixed := self_fixed_bids s in
  ∃ free nsp bc a A0 IJ,
    remove_each fixed (unique_markers (mesh V)) = Ok free
    ∧ nullspace_of (kind s) V fixed = Ok nsp
    ∧ bc_of V fixed = Ok bc
    ∧ weak_form_of B (kind s) V fixed free = Ok a
    ∧ fd_assemble B a bc = Ok A0
    ∧ match I, IJ with
      | None, None => True
      | Some P, Some (P', J) =>
          P' = P ∧ PtAP A0 P = Ok J
          ∧ ksp_setUp B (make_Aksp B (patched J)) = Ok tt
      | _, _ => False
      end
    ∧ w1 = with_self
             (log_world w (bind_events (kind s) V fixed free nsp a bc IJ))
             (bound_self B s free nsp A0 IJ).
Proof.
  intros H s fixed. rewrite get_impl_staged in H.
  unfold staged_get_impl, bind at 1 in H.
  pose proof (stage_free_bids_run V w) as H1. fold s fixed in H1.
  destruct (remove_each fixed _) as [free|e];
    [|destruct H1 as [l H1]; by rewrite H1 in H].
  rewrite H1 in H. exists free.
  unfold bind at 1 in H. rewrite stage_nullspace_of in H.
  cbn [with_self self kind set_free_bids] in H. fold s in H.
  destruct (nullspace_of (kind s) V fixed) as [nsp|e]; [|done].
  exists nsp.
  unfold bind at 1 in H. rewrite stage_bc_run in H. fold (bc_of V fixed) in H.
  destruct (bc_of V fixed) as [bc|e]; [|done].
  exists bc.
  unfold bind at 1 in H. rewrite stage_solver_run in H.
  rewrite (get_weak_form_of _ _ _ free) in H by reflexivity.
  cbn [with_self self kind set_free_bids log_world self_fixed_bids] in H.
  fold s fixed in H.
  destruct (weak_form_of B (kind s) V fixed free) as [a|e]; [|done].
  exists a.
  destruct (fd_assemble B a bc) as [A0|e]; [|done].
  exists A0.
  destruct I as [P|].
  - rewrite stage_sandwich_run in H.
    cbn [with_self self self_A set_interpolated set_A] in H.
    destruct (PtAP A0 P) as [J|e] eqn:HJ; [|done].
    cbn zeta in H.
    destruct (ksp_setUp B _) as [[]|e] eqn:Hk; [|done].
    exists (Some (P, J)). repeat split; try done.
    simplify_eq. unfold with_self, log_world, bind_events, bound_self. cbn.
    f_equal. by rewrite <- !app_assoc.
  - exists None. repeat split; try done.
    unfold ret in H. simplify_eq.
    unfold with_self, log_world, bind_events, bound_self. cbn.
    f_equal. by rewrite <- !app_assoc.
Qed.

(** ** Sums, the patch and symmetry *)

Lemma sum_upto_ext n f g :
  (∀ i, (i < n)%nat → f i = g i) → sum_upto n f = sum_upto n g.
Proof.
  induction n as [|n IH]; intros H; simpl; [done|].
  rewrite IH by (intros; apply H; lia). by rewrite H by lia.
Qed.

Lemma sum_upto_0 n : sum_upto n (λ _, 0) = 0.
Proof. induction n as [|n IH]; simpl; [done|]. rewrite IH. ring. Qed.

Lemma sum_upto_plus n f g :
  sum_upto n (λ i, f i + g i) = sum_upto n f + sum_upto n g.
Proof. induction n as [|n IH]; simpl; [ring|]. rewrite IH. ring. Qed.

Lemma sum_upto_scale n c f :
  sum_upto n (λ i, c * f i) = c * sum_upto n f.
Proof. induction n as [|n IH]; simpl; [ring|]. rewrite IH. ring. Qed.

Lemma sum_upto_swap n m (f : nat → nat → Qc) :
  sum_upto n (λ i, sum_upto m (λ j, f i j))
  = sum_upto m (λ j, sum_upto n (λ i, f i j)).
Proof.
  induction n as [|n IH]; simpl.
  - by rewrite sum_upto_0.
  - by rewrite IH, sum_upto_plus.
Qed.

Lemma fold_left_collect (P : nat → bool) l : ∀ acc,
  fold_left (λ zero_rows row, if P row then zero_rows ++ [row] else zero_rows)
            l acc
  = acc ++ filter (λ r, P r = true) l.
Proof.
  induction l as [|r l IH]; intros acc; simpl.
  - by rewrite app_nil_r.
  - rewrite IH, filter_cons. destruct (P r) eqn:E.
    + rewrite decide_True by done. by rewrite <- app_assoc.
    + rewrite decide_False by (by intros ?). done.
Qed.

Lemma find_zero_rows_filter J :
  find_zero_rows J = filter (λ r, near_zero_row J r = true) (seq 0 (nrows J)).
Proof. exact (fold_left_collect (near_zero_row J) (seq 0 (nrows J)) []). Qed.

Lemma elem_of_find_zero_rows J r :
  r ∈ find_zero_rows J ↔ (r < nrows J)%nat ∧ near_zero_row J r = true.
Proof.
  rewrite find_zero_rows_filter, list_elem_of_filter, elem_of_seq.
  split; intros; [split|split]; try tauto; lia.
Qed.

Lemma stash_patch rows : ∀ M,
  stash (fold_left (λ M r, setValue M r r 1) rows M)
  = stash M ++ map (λ r, (r, r, (1:Qc))) rows.
Proof.
  induction rows as [|r t IH]; intros M; simpl.
  - by rewrite app_nil_r.
  - rewrite IH. simpl. by rewrite <- app_assoc.
Qed.

Lemma shape_patch rows : ∀ M,
  nrows (fold_left (λ M r, setValue M r r 1) rows M) = nrows M
  ∧ ncols (fold_left (λ M r, setValue M r r 1) rows M) = ncols M
  ∧ entry (fold_left (λ M r, setValue M r r 1) rows M) = entry M.
Proof.
  induction rows as [|r t IH]; intros M; simpl; [done|].
  destruct (IH (setValue M r r 1)) as (-> & -> & ->). done.
Qed.

Lemma entry_diag_writes rows : ∀ e i j,
  fold_left (λ e '(r, c, v), upd e r c v) (map (λ r, (r, r, (1:Qc))) rows) e i j
  = if bool_decide (i = j ∧ i ∈ rows) then 1 else e i j.
Proof.
  induction rows as [|r t IH]; intros e i j; simpl.
  - rewrite bool_decide_eq_false_2; [done|]. rewrite elem_of_nil. tauto.
  - rewrite IH. unfold upd.
    repeat case_bool_decide; try done; exfalso;
      rewrite ?elem_of_cons in *; intuition (subst; auto).
Qed.

Lemma patched_entry J i j :
  stash J = [] →
  entry (patched J) i j
  = if bool_decide (i = j ∧ (i < nrows J)%nat ∧ near_zero_row J i = true)
    then 1 else entry J i j.
Proof.
  intros HJ. unfold patched, mat_assemble. cbn [entry].
  rewrite stash_patch, HJ. cbn [app].
  destruct (shape_patch (find_zero_rows J) J) as (_ & _ & ->).
  rewrite entry_diag_writes.
  rewrite (bool_decide_ext (i = j ∧ i ∈ find_zero_rows J)
             (i = j ∧ (i < nrows J)%nat ∧ near_zero_row J i = true)); [done|].
  rewrite elem_of_find_zero_rows. tauto.
Qed.

Lemma patched_shape J :
  nrows (patched J) = nrows J ∧ ncols (patched J) = ncols J
  ∧ stash (patched J) = [].
Proof.
  unfold patched, mat_assemble. cbn.
  destruct (shape_patch (find_zero_rows J) J) as (-> & -> & _). done.
Qed.

Lemma PtAP_Ok A P J :
  PtAP A P = Ok J →
  stash A = [] ∧ nrows A = ncols A ∧ nrows P = ncols A
  ∧ nrows J = ncols P ∧ ncols J = ncols P ∧ stash J = []
  ∧ ∀ i j, entry J i j
           = sum_upto (nrows A) (λ k, sum_upto (ncols A) (λ l,
               entry P k i * entry A k l * entry P l j)).
Proof.
  unfold PtAP, assembled. intros H.
  destruct (stash A) eqn:HA; [|done]. destruct (stash P); [|done].
  simpl in H. repeat case_bool_decide; simpl in H; simplify_eq. done.
Qed.

Lemma PtAP_symmetric A P J :
  mat_symmetric A → PtAP A P = Ok J → mat_symmetric J.
Proof.
  intros [Hsq Hsym] H. apply PtAP_Ok in H as (_ & _ & _ & Hr & Hc & _ & He).
  split; [congruence|]. intros i j _ _. rewrite !He, <- Hsq.
  rewrite sum_upto_swap. apply sum_upto_ext; intros k Hk.
  apply sum_upto_ext; intros l Hl. rewrite (Hsym l k) by done. ring.
Qed.

Lemma patched_symmetric J :
  stash J = [] → mat_symmetric J → mat_symmetric (patched J).
Proof.
  intros HJ [Hsq Hsym]. destruct (patched_shape J) as (Hr & Hc & _).
  split; [congruence|]. intros i j Hi Hj. rewrite !patched_entry by done.
  rewrite Hr in Hi, Hj.
  repeat case_bool_decide; try done;
    try solve [exfalso; intuition (subst; auto)].
  by apply Hsym.
Qed.


(** ** eval *)

Lemma eval_run u v w :
  eval u v w
  = match self_A (self w) with
    | None => (Raise AttributeError, w)
    | Some A =>
        let l := fresh (dom (heap w)) in
        let h1 := <[l := createVecLeft A]> (heap w) in
        let w1 := {| self := self w; heap := h1; trace := trace w |} in
        match h1 !! u, h1 !! v with
        | Some uvec, Some vvec =>
            match mult A uvec with
            | Ok y =>
                (dot vvec y,
                 {| self := self w; heap := <[l := y]> h1;
                    trace := trace w ++ [EvMult] |})
            | Raise e => (Raise e, log_world w1 [EvMult])
            end
        | _, _ => (Raise AttributeError, w1)
        end
    end.
Proof.
  unfold eval, bind at 1, getattr at 1.
  destruct (self_A (self w)) as [A|]; [|done].
  unfold bind at 1, new_vec at 1. cbn zeta.
  unfold bind at 1, vec_ro at 1. cbn [heap].
  destruct (_ !! u) as [uvec|]; [|done].
  unfold bind at 1, vec_ro at 1. cbn [heap].
  destruct (_ !! v) as [vvec|]; [|done].
  unfold bind at 1, call, bind at 1, log, lift.
  destruct (mult A uvec) as [y|e]; [|done].
  unfold bind, vec_wo, vec_ro. cbn [heap self trace].
  rewrite lookup_insert_eq. cbn [heap]. rewrite lookup_insert_eq.
  unfold lift. reflexivity.
Qed.

Lemma eval_fst u v w :
  fst (eval u v w)
  = match self_A (self w) with
    | None => Raise AttributeError
    | Some A =>
        let h1 := <[fresh (dom (heap w)) := createVecLeft A]> (heap w) in
        eval_result A (h1 !! u) (h1 !! v)
    end.
Proof.
  rewrite eval_run. destruct (self_A (self w)) as [A|]; [|done].
  cbn zeta. unfold eval_result.
  destruct (_ !! u) as [uvec|]; [|done].
  destruct (_ !! v) as [vvec|]; [|done].
  by destruct (mult A uvec).
Qed.

Lemma fresh_loc_None (h : gmap loc Vec) : h !! fresh (dom h) = None.
Proof. apply not_elem_of_dom, is_fresh. Qed.

Lemma eval_no_mutation u v w r w2 :
  eval u v w = (r, w2) →
  self w2 = self w
  ∧ (∀ x, is_Some (heap w !! x) → heap w2 !! x = heap w !! x)
  ∧ ∀ ev, ev ∈ trace w2 → ev ∈ trace w ∨ ev = EvMult.
Proof.
  rewrite eval_run. intros H.
  assert (∀ x y, is_Some (heap w !! x) →
            <[fresh (dom (heap w)) := y]> (heap w) !! x = heap w !! x) as Hh.
  { intros x y Hx. apply lookup_insert_ne. intros <-.
    rewrite fresh_loc_None in Hx. by destruct Hx. }
  destruct (self_A (self w)) as [A|];
    [|simplify_eq; cbn; repeat split; auto].
  cbn zeta in H.
  destruct (_ !! u) as [uvec|]; [|simplify_eq; cbn; repeat split; auto].
  destruct (_ !! v) as [vvec|]; [|simplify_eq; cbn; repeat split; auto].
  destruct (mult A uvec) as [y|e]; simplify_eq; cbn.
  - split; [done|]. split.
    + intros x Hx. rewrite insert_insert_eq. auto.
    + intros ev. rewrite elem_of_app, list_elem_of_singleton. tauto.
  - split; [done|]. split; [auto|].
    intros ev. rewrite elem_of_app, list_elem_of_singleton. tauto.
Qed.

Lemma vget_mult_row A (x : Vec) i :
  (i < nrows A)%nat →
  vget (map (λ i, sum_upto (ncols A) (λ j, entry A i j * vget x j))
            (seq 0 (nrows A))) i
  = sum_upto (ncols A) (λ j, entry A i j * vget x j).
Proof.
  intros Hi. unfold vget at 1.
  rewrite (nth_indep _ 0 ((λ i, sum_upto (ncols A) (λ j, entry A i j * vget x j)) 0%nat))
    by (rewrite length_map, length_seq; lia).
  rewrite (map_nth (λ i, sum_upto (ncols A) (λ j, entry A i j * vget x j))).
  by rewrite seq_nth by lia.
Qed.

Lemma eval_result_value A uvec vvec :
  stash A = [] → length uvec = ncols A → length vvec = nrows A →
  eval_result A (Some uvec) (Some vvec) = Ok (vT_A_u A uvec vvec).
Proof.
  intros HA Hu Hv. unfold eval_result, mult, assembled. rewrite HA.
  rewrite bool_decide_eq_true_2 by done. cbn [andb].
  unfold dot. rewrite length_map, length_seq.
  rewrite bool_decide_eq_true_2 by done. f_equal. rewrite Hv.
  unfold vT_A_u. apply sum_upto_ext; intros i Hi.
  by rewrite vget_mult_row.
Qed.

Lemma eval_result_error A uvec vvec :
  ¬ (stash A = [] ∧ length uvec = ncols A ∧ length vvec = nrows A) →
  eval_result A (Some uvec) (Some vvec) = Raise PETScError.
Proof.
  intros Hn. unfold eval_result, mult, assembled.
  destruct (stash A) eqn:HA; [|done].
  case_bool_decide; [|done]. cbn [andb].
  unfold dot. rewrite length_map, length_seq.
  case_bool_decide; [|done]. tauto.
Qed.

Lemma vT_A_u_symmetric A u v :
  mat_symmetric A → vT_A_u A u v = vT_A_u A v u.
Proof.
  intros [Hsq Hsym]. unfold vT_A_u. rewrite <- Hsq.
  transitivity (sum_upto (nrows A) (λ i, sum_upto (nrows A) (λ j,
                  vget v i * (entry A i j * vget u j)))).
  { apply sum_upto_ext; intros i _. by rewrite sum_upto_scale. }
  rewrite sum_upto_swap. apply sum_upto_ext; intros j Hj.
  rewrite <- sum_upto_scale. apply sum_upto_ext; intros i Hi.
  rewrite (Hsym i j) by done. ring.
Qed.

Lemma eval_result_symmetric A U V :
  mat_symmetric A → eval_result A U V = eval_result A V U.
Proof.
  intros Hsym. destruct U as [uvec|], V as [vvec|]; try done.
  destruct (decide (stash A = [] ∧ length uvec = nrows A
                    ∧ length vvec = nrows A)) as [(HA & Hu & Hv)|Hn].
  - destruct Hsym as [Hsq Hs].
    rewrite !eval_result_value by congruence.
    f_equal. by apply vT_A_u_symmetric.
  - destruct Hsym as [Hsq Hs].
    rewrite !eval_result_error; [done| |]; rewrite <- Hsq; tauto.
Qed.

(** ** riesz_map *)

Lemma riesz_map_run B v out w :
  riesz_map B v out w
  = match self_interpolated (self w) with
    | None => (Raise AttributeError, w)
    | Some i =>
        let handle :=
          if i then (λ k, (EvKSPSolve, ksp_solve B k)) <$> self_Aksp (self w)
          else (λ ls, (EvLSSolve, ls_solve B ls)) <$> self_ls (self w) in
        match handle with
        | None => (Raise AttributeError, w)
        | Some (ev, solve) =>
            match heap w !! v with
            | None => (Raise AttributeError, w)
            | Some b =>
                match solve b with
                | Raise e => (Raise e, log_world w [ev])
                | Ok x =>
                    match heap w !! out with
                    | Some _ =>
                        (Ok tt, {| self := self w; heap := <[out := x]> (heap w);
                                   trace := trace w ++ [ev] |})
                    | None => (Raise AttributeError, log_world w [ev])
                    end
                end
            end
        end
    end.
Proof.
  unfold riesz_map, bind at 1, getattr at 1.
  destruct (self_interpolated (self w)) as [[]|]; [| |done].
  - unfold bind at 1, getattr at 1.
    destruct (self_Aksp (self w)) as [k|]; [|done]. cbn [fmap option_fmap option_map].
    unfold bind at 1, vec_ro at 1.
    destruct (heap w !! v) as [b|]; [|done].
    unfold bind, call, bind, log, lift, vec_wo. cbn [heap self trace].
    destruct (ksp_solve B k b) as [x|e]; [|done].
    by destruct (heap w !! out).
  - unfold bind at 1, getattr at 1.
    destruct (self_ls (self w)) as [ls|]; [|done]. cbn [fmap option_fmap option_map].
    unfold bind at 1, vec_ro at 1.
    destruct (heap w !! v) as [b|]; [|done].
    unfold bind, call, bind, log, lift, vec_wo. cbn [heap self trace].
    destruct (ls_solve B ls b) as [x|e]; [|done].
    by destruct (heap w !! out).
Qed.

Lemma riesz_map_Ok B v out w w2 :
  riesz_map B v out w = (Ok tt, w2) →
  ∃ i b x,
    self_interpolated (self w) = Some i
    ∧ heap w !! v = Some b
    ∧ is_Some (heap w !! out)
    ∧ (if (i : bool)
       then ∃ k, self_Aksp (self w) = Some k ∧ ksp_solve B k b = Ok x
       else ∃ ls, self_ls (self w) = Some ls ∧ ls_solve B ls b = Ok x)
    ∧ w2 = {| self := self w; heap := <[out := x]> (heap w);
              trace := trace w ++ [if i then EvKSPSolve else EvLSSolve] |}.
Proof.
  rewrite riesz_map_run. intros H.
  destruct (self_interpolated (self w)) as [i|]; [|done]. cbn zeta in H.
  exists i. destruct i.
  - destruct (self_Aksp (self w)) as [k|]; [|done]. cbn in H.
    destruct (heap w !! v) as [b|]; [|done].
    destruct (ksp_solve B k b) as [x|e] eqn:Hs; [|done].
    destruct (heap w !! out) eqn:Ho; [|done].
    exists b, x. simplify_eq. eauto 10.
  - destruct (self_ls (self w)) as [ls|]; [|done]. cbn in H.
    destruct (heap w !! v) as [b|]; [|done].
    destruct (ls_solve B ls b) as [x|e] eqn:Hs; [|done].
    destruct (heap w !! out) eqn:Ho; [|done].
    exists b, x. simplify_eq. eauto 10.
Qed.

(** ** The fields declared by the elasticity model *)

Lemma Elasticity_nullspace_2d V :
  value_size V = 2%nat →
  Elasticity_nullspace V
  = Ok (Some [ interpolate V (ConstantVec [1; 0]);
               interpolate V (ConstantVec [0; 1]);
               interpolate V (as_vector [Coord 1; Neg (Coord 0)]) ]).
Proof. intros H. unfold Elasticity_nullspace. by rewrite H. Qed.

Lemma Elasticity_nullspace_3d V :
  value_size V = 3%nat →
  Elasticity_nullspace V
  = Ok (Some [ interpolate V (ConstantVec [1; 0; 0]);
               interpolate V (ConstantVec [0; 1; 0]);
               interpolate V (ConstantVec [0; 0; 1]);
               interpolate V (as_vector [Neg (Coord 1); Coord 0; Num 0]);
               interpolate V (as_vector [Neg (Coord 2); Num 0; Coord 0]);
               interpolate V (as_vector [Num 0; Coord 2; Coord 1]) ]).
Proof. intros H. unfold Elasticity_nullspace. by rewrite H. Qed.

Ltac integrand_zero :=
  unfold integrand_at, Elasticity_form; cbn; f_equal; ring.

Lemma Elasticity_2d_annihilated V p n v gv :
  value_size V = 2%nat → pt_dim p = 2%nat →
  Elasticity_nullspace V = Ok (Some n) →
  ∀ b, b ∈ n →
    integrand_at p b v gv (Elasticity_form V (Constant 1)) = Some 0.
Proof.
  intros HV Hp Hn b Hb. rewrite (Elasticity_nullspace_2d V HV) in Hn.
  simplify_eq. destruct p as [d X c]. simpl in Hp. subst d.
  repeat (apply elem_of_cons in Hb as [->|Hb]); [..|by apply elem_of_nil in Hb];
    integrand_zero.
Qed.

Lemma Elasticity_3d_first_five V p n v gv :
  value_size V = 3%nat → pt_dim p = 3%nat →
  Elasticity_nullspace V = Ok (Some n) →
  ∀ b, b ∈ take 5 n →
    integrand_at p b v gv (Elasticity_form V (Constant 1)) = Some 0.
Proof.
  intros HV Hp Hn b Hb. rewrite (Elasticity_nullspace_3d V HV) in Hn.
  simplify_eq. destruct p as [d X c]. simpl in Hp. subst d.
  cbn [take] in Hb.
  repeat (apply elem_of_cons in Hb as [->|Hb]); [..|by apply elem_of_nil in Hb];
    integrand_zero.
Qed.

Lemma Elasticity_3d_sixth V p n :
  value_size V = 3%nat → pt_dim p = 3%nat →
  Elasticity_nullspace V = Ok (Some n) →
  ∃ n6, n !! 5%nat = Some n6
        ∧ fn_expr n6 = as_vector [Num 0; Coord 2; Coord 1]
        ∧ integrand_of_fields p n6 n6 (Elasticity_form V (Constant 1))
          = Some (Q2Qc 2).
Proof.
  intros HV Hp Hn. rewrite (Elasticity_nullspace_3d V HV) in Hn.
  simplify_eq. eexists. split; [reflexivity|]. split; [reflexivity|].
  destruct p as [d X c]. simpl in Hp. subst d.
  unfold integrand_of_fields, integrand_at, Elasticity_form. cbn.
  reflexivity.
Qed.

(** ** The outcome of get_impl *)

Lemma get_impl_fst B V I w :
  let s := self w in
  let fixed := self_fixed_bids s in
  fst (get_impl B V I w)
  = match remove_each fixed (unique_markers (mesh V)) with
    | Raise _ => Raise ValueError
    | Ok free =>
    match nullspace_of (kind s) V fixed with
    | Raise e => Raise e
    | Ok nsp =>
    match bc_of V fixed with
    | Raise e => Raise e
    | Ok bc =>
    match weak_form_of B (kind s) V fixed free with
    | Raise e => Raise e
    | Ok a =>
    match fd_assemble B a bc with
    | Raise e => Raise e
    | Ok A0 =>
    match I with
    | None => Ok tt
    | Some P =>
        match PtAP A0 P with
        | Raise e => Raise e
        | Ok J =>
            match ksp_setUp B (make_Aksp B (patched J)) with
            | Ok _ => Ok tt
            | Raise e => Raise e
            end
        end
    end end end end end end.
Proof.
  intros s fixed. rewrite get_impl_staged.
  unfold staged_get_impl, bind at 1.
  pose proof (stage_free_bids_run V w) as H1. fold s fixed in H1.
  destruct (remove_each fixed _) as [free|e];
    [|destruct H1 as [l H1]; by rewrite H1].
  rewrite H1.
  unfold bind at 1. rewrite stage_nullspace_of.
  cbn [with_self self kind set_free_bids]. fold s.
  destruct (nullspace_of (kind s) V fixed) as [nsp|e]; [|done].
  unfold bind at 1. rewrite stage_bc_run. fold (bc_of V fixed).
  destruct (bc_of V fixed) as [bc|e]; [|done].
  unfold bind at 1. rewrite stage_solver_run.
  rewrite (get_weak_form_of _ _ _ free) by reflexivity.
  cbn [with_self self kind set_free_bids log_world self_fixed_bids].
  fold s fixed.
  destruct (weak_form_of B (kind s) V fixed free) as [a|e]; [|done].
  destruct (fd_assemble B a bc) as [A0|e]; [|done].
  destruct I as [P|]; [|done].
  rewrite stage_sandwich_run.
  cbn [with_self self self_A set_interpolated set_A].
  destruct (PtAP A0 P) as [J|e]; [|done]. cbn zeta.
  by destruct (ksp_setUp B _) as [[]|e].
Qed.

Lemma keeps_ret {A} (a : A) : keeps_free_bids (ret a).
Proof. intros w r w' H. unfold ret in H. by simplify_eq. Qed.

Lemma keeps_raise {A} e : keeps_free_bids (@raise A e).
Proof. intros w r w' H. unfold raise in H. by simplify_eq. Qed.

Lemma keeps_lift {A} (x : result A) : keeps_free_bids (lift x).
Proof. intros w r w' H. unfold lift in H. by simplify_eq. Qed.

Lemma keeps_log ev : keeps_free_bids (log ev).
Proof. intros w r w' H. unfold log in H. by simplify_eq. Qed.

Lemma keeps_getattr {A} (f : InnerProduct → option A) :
  keeps_free_bids (getattr f).
Proof.
  intros w r w' H. unfold getattr in H.
  destruct (f (self w)); by simplify_eq.
Qed.

Lemma keeps_setattr f :
  (∀ s, self_free_bids (f s) = self_free_bids s) →
  keeps_free_bids (setattr f).
Proof. intros Hf w r w' H. unfold setattr in H. simplify_eq. apply Hf. Qed.

Lemma keeps_bind {A C} (m : M A) (k : A → M C) :
  keeps_free_bids m → (∀ a, keeps_free_bids (k a)) →
  keeps_free_bids (bind m k).
Proof.
  intros Hm Hk w r w' H. unfold bind in H.
  destruct (m w) as [[a|e] w1] eqn:E.
  - rewrite (Hk _ _ _ _ H). by apply (Hm _ _ _ E).
  - simplify_eq. by apply (Hm _ _ _ E).
Qed.

Lemma keeps_call {A} ev (x : result A) : keeps_free_bids (call ev x).
Proof. apply keeps_bind; [apply keeps_log | intros; apply keeps_lift]. Qed.

Lemma keeps_read_self {A} (f : InnerProduct → A) :
  keeps_free_bids (read_self f).
Proof. intros w r w' H. unfold read_self in H. by simplify_eq. Qed.

Lemma keeps_patch_rows rows : ∀ M, keeps_free_bids (patch_rows M rows).
Proof.
  induction rows as [|r t IH]; intros M; simpl.
  - apply keeps_ret.
  - apply keeps_bind; [apply keeps_log | intros; apply IH].
Qed.

Create HintDb keeps.
#[export] Hint Resolve keeps_ret keeps_raise keeps_lift keeps_log keeps_getattr
  keeps_call keeps_read_self keeps_patch_rows : keeps.

Ltac keeps :=
  repeat first
    [ progress eauto with keeps
    | apply keeps_bind; [|intros ?]
    | apply keeps_setattr; intros []; reflexivity
    | case_bool_decide
    | match goal with |- keeps_free_bids (match ?x with _ => _ end) =>
        destruct x end ].

Lemma keeps_get_weak_form B V : keeps_free_bids (get_weak_form B V).
Proof. unfold get_weak_form, get_mu. keeps. Qed.

Lemma keeps_after_free_bids B V I fixed :
  keeps_free_bids
    (let* nsp := stage_nullspace V fixed in
     let* bc := stage_bc V fixed in
     let* _ := stage_solver B V nsp bc in
     match I with
     | None => ret tt
     | Some P => stage_sandwich B P
     end).
Proof.
  apply keeps_bind; [|intros nsp; apply keeps_bind; [|intros bc; apply keeps_bind; [|intros []]]].
  - unfold stage_nullspace. case_bool_decide; [|apply keeps_ret].
    keeps.
  - unfold stage_bc. keeps.
  - unfold stage_solver. apply keeps_bind; [apply keeps_get_weak_form|].
    intros a. keeps.
  - destruct I as [P|]; [|apply keeps_ret]. unfold stage_sandwich. keeps.
Qed.

Lemma get_impl_free_bids B V I w free :
  remove_each (self_fixed_bids (self w)) (unique_markers (mesh V)) = Ok free →
  self_free_bids (self (snd (get_impl B V I w))) = Some free.
Proof.
  intros Hrm. rewrite get_impl_staged. unfold staged_get_impl, bind at 1.
  pose proof (stage_free_bids_run V w) as H1. rewrite Hrm in H1. rewrite H1.
  destruct (bind _ _ _) as [r w'] eqn:E.
  apply keeps_after_free_bids in E. cbn [snd]. by rewrite E.
Qed.

(** ** The bound instance *)


Lemma get_impl_Ok_Some B V P w w1 :
  get_impl B V (Some P) w = (Ok tt, w1) →
  let s := self w in
  let fixed := self_fixed_bids s in
  ∃ free nsp bc a A0 J,
    remove_each fixed (unique_markers (mesh V)) = Ok free
    ∧ nullspace_of (kind s) V fixed = Ok nsp
    ∧ bc_of V fixed = Ok bc
    ∧ weak_form_of B (kind s) V fixed free = Ok a
    ∧ fd_assemble B a bc = Ok A0
    ∧ PtAP A0 P = Ok J
    ∧ ksp_setUp B (make_Aksp B (patched J)) = Ok tt
    ∧ w1 = with_self
             (log_world w
                (bind_events (kind s) V fixed free nsp a bc (Some (P, J))))
             (bound_self B s free nsp A0 (Some (P, J))).
Proof.
  intros H s fixed.
  destruct (get_impl_Ok _ _ _ _ _ H)
    as (free & nsp & bc & a & A0 & IJ & ? & ? & ? & ? & ? & HI & ->).
  destruct IJ as [[P' J]|]; [|done]. destruct HI as (-> & ? & ?).
  eauto 14.
Qed.


Lemma filter_patch_events J :
  filter (λ ev, is_variational_solve ev) (patch_events J) = [].
Proof.
  unfold patch_events. induction (find_zero_rows J) as [|r t IH]; [done|].
  simpl. rewrite filter_cons. by rewrite decide_False by (by intros ?).
Qed.

Lemma filter_bind_events k V fixed free nsp a bc IJ :
  filter (λ ev, is_variational_solve ev)
         (bind_events k V fixed free nsp a bc IJ)
  = mu_events k V fixed free.
Proof.
  unfold bind_events. rewrite !list.filter_app.
  assert (filter (λ ev, is_variational_solve ev) (nullspace_events nsp) = [])
    as -> by (by destruct nsp).
  assert (filter (λ ev, is_variational_solve ev) (mu_events k V fixed free)
          = mu_events k V fixed free) as ->.
  { unfold mu_events. destruct k; try done. by case_bool_decide. }
  assert (filter (λ ev, is_variational_solve ev)
            match IJ with
            | Some (_, J) => EvPtAP :: patch_events J ++ [EvMatAssemble; EvKSPSetUp]
            | None => []
            end = []) as ->.
  { destruct IJ as [[P J]|]; [|done].
    rewrite filter_cons, decide_False by (by intros ?).
    by rewrite list.filter_app, filter_patch_events. }
  cbn. by rewrite app_nil_r.
Qed.

(** * The claims *)

Ltac by_compute := apply (bool_decide_unpack _); vm_compute; exact I.

(** ** Boundary ids *)

(** C8: for a mesh whose boundary markers are distinct, if the fixed ids are
    distinct and all are boundary ids then get_impl leaves in
    [self.free_bids] a list disjoint from [fixed_bids] whose union with
    [fixed_bids] is the set of boundary ids (whatever happens later in
    get_impl); and if some fixed id is not a boundary id, get_impl raises
    ValueError. *)
Theorem free_bids_partition (B : Backend) (V : FunctionSpace) (I : option Mat)
    (w : World) :
  let fixed := self_fixed_bids (self w) in
  let markers := unique_markers (mesh V) in
  (NoDup markers → NoDup fixed → fixed ⊆ markers →
   ∃ free,
     self_free_bids (self (snd (get_impl B V I w))) = Some free
     ∧ (∀ x, x ∈ free → x ∉ fixed)
     ∧ (∀ x, x ∈ markers ↔ x ∈ free ∨ x ∈ fixed))
  ∧ ((∃ x, x ∈ fixed ∧ x ∉ markers) →
     fst (get_impl B V I w) = Raise ValueError).
Proof.
  intros fixed markers. split.
  - intros Hm Hf Hsub.
    destruct (remove_each_valid fixed markers Hf Hsub) as [free Hfree].
    exists free. split; [by apply get_impl_free_bids|].
    apply remove_each_Ok in Hfree.
    assert (NoDup (fixed ++ free)) as Hnd by (by rewrite <- Hfree).
    apply list.NoDup_app in Hnd as (_ & Hdisj & _).
    split.
    + intros x Hx Hx'. by apply (Hdisj x).
    + intros x. rewrite Hfree, elem_of_app. tauto.
  - intros (x & Hx & Hnx).
    pose proof (get_impl_fst B V I w) as H. cbn zeta in H. fold fixed markers in H.
    destruct (remove_each fixed markers) as [free|e] eqn:E; [|done].
    apply remove_each_Ok in E. exfalso. apply Hnx. rewrite E.
    apply elem_of_app. by left.
Qed.

Lemma free_bids_partition_witness :
  (∃ free,
     self_free_bids (self (bound ElasticityInnerProduct [1%Z] 2 None)) = Some free
     ∧ (∀ x, x ∈ free → x ∉ [1%Z])
     ∧ (∀ x, x ∈ [1%Z; 2%Z; 3%Z] ↔ x ∈ free ∨ x ∈ [1%Z]))
  ∧ fst (get_impl dg0_backend (DG0 2) None
           (fresh_world ElasticityInnerProduct [7%Z])) = Raise ValueError.
Proof.
  split.
  - apply (proj1 (free_bids_partition dg0_backend (DG0 2) None
                    (fresh_world ElasticityInnerProduct [1%Z]))).
    + by_compute.
    + by_compute.
    + by_compute.
  - apply (proj2 (free_bids_partition dg0_backend (DG0 2) None
                    (fresh_world ElasticityInnerProduct [7%Z]))).
    exists 7%Z. split; by_compute.
Defined.

(** C10: for a mesh whose boundary markers are distinct, if [fixed_bids]
    lists some id more than once then get_impl raises an error (ValueError,
    from list.remove), also when every listed id is a boundary id. *)
Theorem duplicate_fixed_bid (B : Backend) (V : FunctionSpace) (I : option Mat)
    (w : World) :
  NoDup (unique_markers (mesh V)) →
  ¬ NoDup (self_fixed_bids (self w)) →
  fst (get_impl B V I w) = Raise ValueError.
Proof.
  intros Hm Hdup.
  pose proof (get_impl_fst B V I w) as H. cbn zeta in H.
  destruct (remove_each _ _) as [free|e] eqn:E; [|done].
  apply remove_each_Ok in E. exfalso. apply Hdup.
  rewrite E in Hm. by apply list.NoDup_app in Hm as (? & _).
Qed.

Lemma duplicate_fixed_bid_witness :
  fst (get_impl dg0_backend (DG0 2) None
         (fresh_world H1InnerProduct [1%Z; 1%Z])) = Raise ValueError.
Proof.
  apply (duplicate_fixed_bid dg0_backend (DG0 2) None
           (fresh_world H1InnerProduct [1%Z; 1%Z])).
  - by_compute.
  - by_compute.
Defined.

(** ** The dimension guard *)




(** ** The interpolated operator *)



(** ** The nullspace *)

(** C6: after a successful get_impl the linear solver [self.ls] carries a
    nullspace if and only if [fixed_bids] is empty and get_nullspace of the
    model returned a list of functions (the Laplace and the elasticity
    models, not H1); the basis is then made of those functions, has been
    orthonormalized, and is given both as nullspace and as
    transpose-nullspace. *)
Theorem nullspace_attachment (B : Backend) (V : FunctionSpace)
    (I : option Mat) (w w1 : World) :
  get_impl B V I w = (Ok tt, w1) →
  ∃ ls,
    self_ls (self w1) = Some ls
    ∧ ls_transpose_nullspace ls = ls_nullspace ls
    ∧ (is_Some (ls_nullspace ls)
       ↔ self_fixed_bids (self w) = []
         ∧ ∃ fns, get_nullspace (kind (self w)) V = Ok (Some fns))
    ∧ (is_Some (ls_nullspace ls)
       ↔ self_fixed_bids (self w) = [] ∧ kind (self w) ≠ H1InnerProduct)
    ∧ (∀ basis, ls_nullspace ls = Some basis →
         vsb_orthonormalized basis = true
         ∧ get_nullspace (kind (self w)) V = Ok (Some (vsb_vecs basis))
         ∧ EvOrthonormalize ∈ trace w1).
Proof.
  intros H.
  destruct (get_impl_Ok _ _ _ _ _ H)
    as (free & nsp & bc & a & A0 & IJ & _ & Hnsp & _ & _ & _ & _ & ->).
  exists (mkLinearSolver A0 (self_params (self w)) nsp nsp).
  split; [by destruct IJ as [[]|]|]. split; [done|]. cbn [ls_nullspace].
  unfold nullspace_of in Hnsp.
  case_bool_decide as Hf.
  - destruct (get_nullspace (kind (self w)) V) as [[fns|]|e] eqn:Hg;
      simplify_eq.
    + split; [|split]; [split; eauto| |].
      * split; [|eauto]. intros _. split; [done|]. intros Hk.
        by rewrite Hk in Hg.
      * intros basis ?. simplify_eq. cbn. repeat split; try done.
        apply elem_of_app. right. unfold bind_events. cbn.
        apply elem_of_cons. by left.
    + split; [|split].
      * split; [by intros []|]. by intros (_ & fns & ?).
      * split; [by intros []|]. intros (_ & Hk).
        destruct (kind (self w)); [done| |];
          unfold get_nullspace, Laplace_nullspace, Elasticity_nullspace in Hg;
          repeat case_bool_decide; done.
      * by intros basis ?.
  - simplify_eq. split; [|split].
    + split; [by intros []|]. by intros (? & _).
    + split; [by intros []|]. by intros (? & _).
    + by intros basis ?.
Qed.

Lemma nullspace_attachment_witness :
  ∃ ls, self_ls (self (bound LaplaceInnerProduct [] 2 None)) = Some ls
        ∧ ls_transpose_nullspace ls = ls_nullspace ls.
Proof.
  destruct (nullspace_attachment dg0_backend (DG0 2) None
              (fresh_world LaplaceInnerProduct [])
              (bound LaplaceInnerProduct [] 2 None))
    as (ls & H1 & H2 & _).
  - apply run_pair. vm_compute. reflexivity.
  - exists ls. split; [exact H1 | exact H2].
Defined.

(** ** The coefficient of the elasticity model *)

(** C7: in a successful get_impl of the elasticity model the assembled form
    is mu * inner(sym(grad u), sym(grad v)) * dx where, if [fixed_bids] is
    empty, mu is the constant 1.0 and no variational solve is made, and
    otherwise mu is the function returned by the one variational solve of
    the bind: inner(grad u, grad v) * dx == inner(Constant 0, v) * dx on
    the CG1 space of the mesh, with Dirichlet value 1 on [fixed_bids] and
    10 on [free_bids]. *)
Theorem elasticity_coefficient (B : Backend) (V : FunctionSpace)
    (I : option Mat) (w w1 : World) :
  kind (self w) = ElasticityInnerProduct →
  get_impl B V I w = (Ok tt, w1) →
  let fixed := self_fixed_bids (self w) in
  let W := mkFunctionSpace (mesh V) "CG" 1 1 in
  let a := dx (inner (grad (TrialFunction W)) (grad (TestFunction W))) in
  let b := dx (inner (Constant 0) (TestFunction W)) in
  ∃ mu bc free evs,
    self_free_bids (self w1) = Some free
    ∧ trace w1 = trace w ++ evs
    ∧ EvAssemble (dx (Mul mu (inner (sym (grad (TrialFunction V)))
                                    (sym (grad (TestFunction V)))))) bc ∈ evs
    ∧ (fixed = [] →
       mu = Constant 1
       ∧ filter (λ ev, is_variational_solve ev) evs = [])
    ∧ (fixed ≠ [] →
       let bcs := [ mkDirichletBC W (Num 1) fixed;
                    mkDirichletBC W (Num (Q2Qc 10)) free ] in
       ∃ dofs,
         fd_solve B a b bcs = Ok dofs
         ∧ mu = Coefficient W dofs
         ∧ filter (λ ev, is_variational_solve ev) evs
           = [EvVariationalSolve a b bcs]).
Proof.
  intros Hk H fixed W a b.
  destruct (get_impl_Ok _ _ _ _ _ H)
    as (free & nsp & bc & af & A0 & IJ & _ & _ & _ & Ha & _ & _ & ->).
  fold fixed in Ha. rewrite Hk in Ha |- *. unfold weak_form_of in Ha.
  assert (∀ mu, af = Elasticity_form V mu →
    EvAssemble (dx (Mul mu (inner (sym (grad (TrialFunction V)))
                                  (sym (grad (TestFunction V)))))) bc
    ∈ bind_events ElasticityInnerProduct V fixed free nsp af bc IJ) as Hin.
  { intros mu ->. unfold bind_events. rewrite !elem_of_app.
    right. right. left. apply elem_of_cons. by left. }
  assert (self_free_bids (bound_self B (self w) free nsp A0 IJ) = Some free)
    as Hfree by (by destruct IJ as [[]|]).
  case_bool_decide as Hf.
  - simplify_eq. eexists (Constant 1), bc, free, _.
    split; [exact Hfree|]. split; [reflexivity|]. split; [by apply Hin|].
    split; [|done]. intros _. split; [done|].
    rewrite filter_bind_events. unfold mu_events.
    by rewrite bool_decide_eq_true_2.
  - destruct (fd_solve B (mu_a V) (mu_b V) (mu_bcs V fixed free))
      as [dofs|e] eqn:Hs; simplify_eq.
    eexists (Coefficient W dofs), bc, free, _.
    split; [exact Hfree|]. split; [reflexivity|]. split; [by apply Hin|].
    split; [done|]. intros _. exists dofs. split; [exact Hs|]. split; [done|].
    rewrite filter_bind_events. unfold mu_events.
    by rewrite bool_decide_eq_false_2.
Qed.

Lemma elasticity_coefficient_witness :
  ∃ mu bc evs,
    trace (bound ElasticityInnerProduct [1%Z] 2 None) = [] ++ evs
    ∧ EvAssemble (dx (Mul mu (inner (sym (grad (TrialFunction (DG0 2))))
                                    (sym (grad (TestFunction (DG0 2))))))) bc
      ∈ evs.
Proof.
  destruct (elasticity_coefficient dg0_backend (DG0 2) None
              (fresh_world ElasticityInnerProduct [1%Z])
              (bound ElasticityInnerProduct [1%Z] 2 None))
    as (mu & bc & free & evs & _ & H1 & H2 & _).
  - reflexivity.
  - apply run_pair. vm_compute. reflexivity.
  - exists mu, bc, evs. split; [exact H1 | exact H2].
Defined.

(** ** eval *)

Lemma bound_operator B V I w w1 :
  get_impl B V I w = (Ok tt, w1) →
  ∃ ls A,
    self_ls (self w1) = Some ls
    ∧ self_A (self w1) = Some A
    ∧ match I with
      | None => self_interpolated (self w1) = Some false ∧ A = ls_A ls
      | Some P =>
          self_interpolated (self w1) = Some true
          ∧ ∃ J Aksp, PtAP (ls_A ls) P = Ok J ∧ A = patched J
                      ∧ self_Aksp (self w1) = Some Aksp
                      ∧ ksp_operators Aksp = Some A
      end.
Proof.
  intros H.
  destruct (get_impl_Ok _ _ _ _ _ H)
    as (free & nsp & bc & a & A0 & IJ & _ & _ & _ & _ & _ & HI & ->).
  destruct I as [P|], IJ as [[P' J]|]; try done.
  - destruct HI as (-> & HJ & _). eexists _, _. cbn. eauto 10.
  - eexists _, _. cbn. eauto.
Qed.

(** C5, as the code has it: on a bound instance, for vectors u and v of
    the sizes of the operator, eval(u, v) returns the scalar v^T A u, where
    A is the assembled matrix, or the patched J = transpose(P) A P when an
    interpolation matrix P was given: v^T J u, not v^T J v. The call
    leaves [self] unchanged and every existing vector with its content
    (the product A u goes to a new vector). *)
Theorem eval_bilinear_form (B : Backend) (V : FunctionSpace) (I : option Mat)
    (w w1 : World) (u v : loc) (uvec vvec : Vec) :
  get_impl B V I w = (Ok tt, w1) →
  heap w1 !! u = Some uvec →
  heap w1 !! v = Some vvec →
  ∃ ls A,
    self_ls (self w1) = Some ls
    ∧ self_A (self w1) = Some A
    ∧ match I with
      | None => A = ls_A ls
      | Some P => ∃ J, PtAP (ls_A ls) P = Ok J ∧ A = patched J
      end
    ∧ (stash A = [] → length uvec = ncols A → length vvec = nrows A →
       fst (eval u v w1) = Ok (vT_A_u A uvec vvec))
    ∧ self (snd (eval u v w1)) = self w1
    ∧ (∀ x, is_Some (heap w1 !! x) →
            heap (snd (eval u v w1)) !! x = heap w1 !! x).
Proof.
  intros H Hu Hv.
  destruct (bound_operator _ _ _ _ _ H) as (ls & A & Hls & HA & HI).
  exists ls, A. split; [done|]. split; [done|]. split.
  { destruct I as [P|]; [|tauto].
    destruct HI as (_ & J & Aksp & ? & ? & _). eauto. }
  destruct (eval u v w1) as [r w2] eqn:E.
  destruct (eval_no_mutation _ _ _ _ _ E) as (Hself & Hheap & _).
  split; [|done].
  intros Hs Hlu Hlv.
  change r with (fst (r, w2)). rewrite <- E, eval_fst, HA. cbn zeta.
  rewrite !lookup_insert_ne.
  - rewrite Hu, Hv. by apply eval_result_value.
  - intros Heq. rewrite <- Heq, fresh_loc_None in Hv. done.
  - intros Heq. rewrite <- Heq, fresh_loc_None in Hu. done.
Qed.

Lemma eval_bilinear_form_witness :
  ∃ A, self_A (self (bound H1InnerProduct [] 2 (Some first_only))) = Some A
       ∧ fst (eval 1 2 (bound H1InnerProduct [] 2 (Some first_only)))
         = Ok (vT_A_u A [Q2Qc 2; 0] [0; Q2Qc 2]).
Proof.
  destruct (eval_bilinear_form dg0_backend (DG0 2) (Some first_only)
              (fresh_world H1InnerProduct [])
              (bound H1InnerProduct [] 2 (Some first_only))
              1%positive 2%positive [Q2Qc 2; 0] [0; Q2Qc 2])
    as (ls & A & Hls & HA & (J & HJ & ->) & Hval & _).
  - apply run_pair. vm_compute. reflexivity.
  - reflexivity.
  - reflexivity.
  - exists (patched J). split; [exact HA|].
    destruct (patched_shape J) as (Hr & Hc & Hs).
    apply PtAP_Ok in HJ as (_ & _ & _ & Hr' & Hc' & _).
    apply Hval.
    + exact Hs.
    + rewrite Hc, Hc'. reflexivity.
    + rewrite Hr, Hr'. reflexivity.
Defined.

(** C5 as stated fails in the interpolated case: with J = diag(1/2, 1/2),
    u = (2, 0) and v = (0, 2), eval(u, v) is v^T J u = 0 while
    v^T J v = 2. *)
Lemma eval_interpolated_is_not_vT_J_v :
  ∃ J,
    fst (get_impl dg0_backend (DG0 2) (Some identity2)
           (fresh_world H1InnerProduct [])) = Ok tt
    ∧ self_A (self (bound H1InnerProduct [] 2 (Some identity2))) = Some J
    ∧ heap (bound H1InnerProduct [] 2 (Some identity2)) !! 1%positive
      = Some [Q2Qc 2; 0]
    ∧ heap (bound H1InnerProduct [] 2 (Some identity2)) !! 2%positive
      = Some [0; Q2Qc 2]
    ∧ fst (eval 1 2 (bound H1InnerProduct [] 2 (Some identity2))) = Ok 0
    ∧ vT_A_u J [0; Q2Qc 2] [0; Q2Qc 2] = Q2Qc 2
    ∧ vT_A_u J [Q2Qc 2; 0] [0; Q2Qc 2] = 0.
Proof.
  eexists. split; [by_compute|]. split; [reflexivity|].
  repeat split; by_compute.
Qed.

(** C9: on a bound instance whose assembled matrix (the one held by the
    linear solver) is symmetric, eval(u, v) and eval(v, u) return the same
    value, or both fail, for all u and v, with or without an interpolation
    matrix. *)
Theorem eval_symmetric (B : Backend) (V : FunctionSpace) (I : option Mat)
    (w w1 : World) (u v : loc) :
  get_impl B V I w = (Ok tt, w1) →
  (∀ ls, self_ls (self w1) = Some ls → mat_symmetric (ls_A ls)) →
  fst (eval u v w1) = fst (eval v u w1).
Proof.
  intros H Hsym.
  destruct (bound_operator _ _ _ _ _ H) as (ls & A & Hls & HA & HI).
  specialize (Hsym ls Hls).
  assert (mat_symmetric A) as HsA.
  { destruct I as [P|].
    - destruct HI as (_ & J & Aksp & HJ & -> & _).
      apply patched_symmetric.
      + by apply PtAP_Ok in HJ as (_&_&_&_&_&?&_).
      + by apply (PtAP_symmetric (ls_A ls) P).
    - by destruct HI as (_ & ->). }
  rewrite !eval_fst, HA. cbn zeta. by apply eval_result_symmetric.
Qed.

Lemma eval_symmetric_witness :
  fst (eval 1 2 (bound H1InnerProduct [] 2 (Some first_only)))
  = fst (eval 2 1 (bound H1InnerProduct [] 2 (Some first_only))).
Proof.
  apply (eval_symmetric dg0_backend (DG0 2) (Some first_only)
           (fresh_world H1InnerProduct [])).
  - apply run_pair. vm_compute. reflexivity.
  - intros ls Hls. injection Hls as <-. split; [reflexivity|].
    intros i j Hi Hj. cbn in Hi, Hj.
    destruct i as [|[|i]]; [| |lia]; (destruct j as [|[|j]]; [| |lia]);
      reflexivity.
Defined.

(** ** riesz_map *)

(** Two vectors with the same image cannot both come back from it. *)
Lemma round_trip_needs_injectivity (A : Mat) (solve : Vec → result Vec)
    (p q d : Vec) :
  mult A p = Ok d → mult A q = Ok d → p ≠ q →
  ¬ (solve d = Ok p ∧ solve d = Ok q).
Proof. intros _ _ Hne [Hp Hq]. rewrite Hp in Hq. by simplify_eq. Qed.

Lemma checked_solve_exact A b x : checked_solve A b = Ok x → mult A x = Ok b.
Proof. unfold checked_solve. by case_decide; intros; simplify_eq. Qed.

(** C4, as the code has it: on a bound instance riesz_map(v, out) hands the
    content b of v to the solver made by get_impl (the KSP on the patched
    J when interpolated, the linear solver on the assembled A otherwise)
    and writes the answer x into out; nothing else changes, and the only
    call is that solve. When the solvers return solutions, x solves
    A x = b for the operator A of the instance. If b = A p then
    A x = A p, and x = p when A is injective; with a nullspace x and p may
    differ. *)
Theorem riesz_map_solves (B : Backend) (V : FunctionSpace) (I : option Mat)
    (w w1 w2 : World) (v out : loc) :
  get_impl B V I w = (Ok tt, w1) →
  riesz_map B v out w1 = (Ok tt, w2) →
  (∀ ls b x, ls_solve B ls b = Ok x → mult (ls_A ls) x = Ok b) →
  (∀ k A b x, ksp_operators k = Some A → ksp_solve B k b = Ok x →
              mult A x = Ok b) →
  ∃ A b x,
    self_A (self w1) = Some A
    ∧ heap w1 !! v = Some b
    ∧ heap w2 = <[out := x]> (heap w1)
    ∧ mult A x = Ok b
    ∧ self w2 = self w1
    ∧ (∃ ev, trace w2 = trace w1 ++ [ev] ∧ is_setup_event ev = false)
    ∧ (∀ p, mult A p = Ok b →
         (∀ y z d, mult A y = Ok d → mult A z = Ok d → y = z) → x = p).
Proof.
  intros H Hr Hls Hksp.
  destruct (bound_operator _ _ _ _ _ H) as (ls & A & Hsls & HA & HI).
  destruct (riesz_map_Ok _ _ _ _ _ Hr)
    as (i & b & x & Hi & Hv & Ho & Hsolve & ->).
  exists A, b, x.
  assert (mult A x = Ok b) as Hx.
  { destruct I as [P|].
    - destruct HI as (Hi' & J & Aksp & _ & _ & Hk & Hop).
      rewrite Hi in Hi'. simplify_eq.
      destruct Hsolve as (k & Hk' & Hs). rewrite Hk in Hk'. simplify_eq.
      by apply (Hksp k).
    - destruct HI as (Hi' & ->).
      rewrite Hi in Hi'. simplify_eq.
      destruct Hsolve as (ls' & Hls' & Hs). rewrite Hsls in Hls'. simplify_eq.
      by apply Hls. }
  cbn. repeat split; try done.
  - eexists. split; [reflexivity|]. by destruct i.
  - intros p Hp Hinj. by apply (Hinj x p b).
Qed.

Lemma riesz_map_solves_witness :
  ∃ A x,
    self_A (self (bound H1InnerProduct [] 2 None)) = Some A
    ∧ heap (snd (riesz_map dg0_backend 1 3 (bound H1InnerProduct [] 2 None)))
      = <[3%positive := x]> (heap (bound H1InnerProduct [] 2 None))
    ∧ mult A x = Ok [Q2Qc 2; 0].
Proof.
  destruct (riesz_map_solves dg0_backend (DG0 2) None
              (fresh_world H1InnerProduct [])
              (bound H1InnerProduct [] 2 None)
              (snd (riesz_map dg0_backend 1 3 (bound H1InnerProduct [] 2 None)))
              1%positive 3%positive)
    as (A & b & x & HA & Hb & Hh & Hx & _).
  - apply run_pair. vm_compute. reflexivity.
  - apply run_pair. vm_compute. reflexivity.
  - intros ls b x. apply checked_solve_exact.
  - intros k A b x Hk. cbn. rewrite Hk. apply checked_solve_exact.
  - exists A, x. split; [exact HA|]. split; [exact Hh|].
    assert (b = [Q2Qc 2; 0]) as <-; [|exact Hx].
    assert (heap (bound H1InnerProduct [] 2 None) !! 1%positive
            = Some [Q2Qc 2; 0]) as Hb' by reflexivity.
    rewrite Hb in Hb'. by injection Hb'.
Defined.

(** C4 as stated fails on an instance with a nullspace: for the Laplace
    model with no fixed id the operator annihilates the declared constant
    field p = (1, 0); riesz_map on d = A p = 0 returns 0, not p. *)
Lemma riesz_round_trip_fails_on_nullspace :
  ∃ A,
    fst (get_impl dg0_backend (DG0 2) None
           (fresh_world LaplaceInnerProduct [])) = Ok tt
    ∧ self_A (self (bound LaplaceInnerProduct [] 2 None)) = Some A
    ∧ mult A [1; 0] = Ok [0; 0]
    ∧ heap (bound LaplaceInnerProduct [] 2 None) !! 3%positive = Some [0; 0]
    ∧ fst (riesz_map dg0_backend 3 1 (bound LaplaceInnerProduct [] 2 None))
      = Ok tt
    ∧ heap (snd (riesz_map dg0_backend 3 1
                   (bound LaplaceInnerProduct [] 2 None))) !! 1%positive
      = Some [0; 0]
    ∧ [0; 0] ≠ [(1 : Qc); 0].
Proof.
  eexists. split; [by_compute|]. split; [reflexivity|].
  repeat split; by_compute.
Qed.

(** ** The nullspace declared by the elasticity model *)

(** In two dimensions every declared field has a vanishing integrand
    against every test function. *)
Lemma elasticity_2d_fields_annihilated (V : FunctionSpace) (p : Point)
    (v : nat → Qc) (gv : nat → nat → Qc) :
  value_size V = 2%nat → pt_dim p = 2%nat →
  ∃ n1 n2 n3,
    get_nullspace ElasticityInnerProduct V = Ok (Some [n1; n2; n3])
    ∧ fn_expr n3 = as_vector [Coord 1; Neg (Coord 0)]
    ∧ ∀ b, b ∈ [n1; n2; n3] →
        integrand_at p b v gv (Elasticity_form V (Constant 1)) = Some 0.
Proof.
  intros HV Hp. eexists _, _, _.
  split; [by apply Elasticity_nullspace_2d|]. split; [done|].
  apply (Elasticity_2d_annihilated V p _ v gv HV Hp).
  by apply Elasticity_nullspace_2d.
Qed.

(** C1, where the code departs from it: in three dimensions the model
    declares six fields; the first five (three constants and the rotations
    [-y, x, 0] and [-z, 0, x]) have a vanishing integrand against every
    test function, but the sixth is [0, z, y], whose symmetric gradient is
    not zero: the integrand of a(n6, n6), with mu = 1, is 2 at every
    point, so the assembled matrix does not annihilate it. *)
Theorem elasticity_3d_sixth_field_not_annihilated (V : FunctionSpace)
    (p : Point) :
  value_size V = 3%nat → pt_dim p = 3%nat →
  ∃ n1 n2 n3 n4 n5 n6,
    get_nullspace ElasticityInnerProduct V
    = Ok (Some [n1; n2; n3; n4; n5; n6])
    ∧ fn_expr n4 = as_vector [Neg (Coord 1); Coord 0; Num 0]
    ∧ fn_expr n5 = as_vector [Neg (Coord 2); Num 0; Coord 0]
    ∧ fn_expr n6 = as_vector [Num 0; Coord 2; Coord 1]
    ∧ (∀ b v gv, b ∈ [n1; n2; n3; n4; n5] →
         integrand_at p b v gv (Elasticity_form V (Constant 1)) = Some 0)
    ∧ integrand_of_fields p n6 n6 (Elasticity_form V (Constant 1))
      = Some (Q2Qc 2)
    ∧ Q2Qc 2 ≠ 0.
Proof.
  intros HV Hp. eexists _, _, _, _, _, _.
  split; [by apply Elasticity_nullspace_3d|].
  split; [done|]. split; [done|]. split; [done|]. split; [|split].
  - intros b v gv Hb.
    apply (Elasticity_3d_first_five V p _ v gv HV Hp
             (Elasticity_nullspace_3d V HV)). exact Hb.
  - destruct (Elasticity_3d_sixth V p _ HV Hp (Elasticity_nullspace_3d V HV))
      as (n6 & Hn6 & _ & Hi).
    cbn in Hn6. by simplify_eq.
  - by intros ?.
Qed.

Lemma elasticity_3d_sixth_field_witness :
  ∃ n6,
    (∃ l, get_nullspace ElasticityInnerProduct (DG0 3) = Ok (Some l)
          ∧ l !! 5%nat = Some n6)
    ∧ integrand_of_fields (centroid 3) n6 n6
        (Elasticity_form (DG0 3) (Constant 1)) = Some (Q2Qc 2).
Proof.
  destruct (elasticity_3d_sixth_field_not_annihilated (DG0 3) (centroid 3))
    as (n1 & n2 & n3 & n4 & n5 & n6 & Hn & _ & _ & _ & _ & Hi & _).
  - reflexivity.
  - reflexivity.
  - exists n6. split; [|exact Hi]. eexists. split; [exact Hn | reflexivity].
Defined.

(** * Further properties of the code *)

(** ** The weak forms *)

Lemma sum_upto_nonneg n f :
  (∀ i, (i < n)%nat → 0 ≤ f i) → 0 ≤ sum_upto n f.
Proof.
  induction n as [|n IH]; intros H; simpl; [done|].
  apply Qcplus_nonneg_nonneg; [apply IH; intros; apply H; lia | apply H; lia].
Qed.

Lemma sum_upto_zero_inv n f :
  (∀ i, (i < n)%nat → 0 ≤ f i) → sum_upto n f = 0 →
  ∀ i, (i < n)%nat → f i = 0.
Proof.
  induction n as [|n IH]; intros Hf Hs i Hi; [lia|]. simpl in Hs.
  assert (0 ≤ sum_upto n f) as H1 by (apply sum_upto_nonneg; intros; apply Hf; lia).
  assert (0 ≤ f n) as H2 by (apply Hf; lia).
  assert (sum_upto n f = 0 ∧ f n = 0) as [Hs1 Hs2].
  { split; apply Qcle_antisym; try done.
    - rewrite <- Hs. rewrite <- (Qcplus_0_r (sum_upto n f)) at 1.
      by apply Qcplus_le_compat.
    - rewrite <- Hs. rewrite <- (Qcplus_0_l (f n)) at 1.
      by apply Qcplus_le_compat. }
  destruct (decide (i = n)) as [->|]; [done|].
  apply IH; try done; [intros; apply Hf|]; lia.
Qed.

Lemma sum_upto_all_zero n f :
  (∀ i, (i < n)%nat → f i = 0) → sum_upto n f = 0.
Proof.
  intros H. rewrite <- (sum_upto_0 n). by apply sum_upto_ext.
Qed.

Lemma Qc_square_nonneg (x : Qc) : 0 ≤ x * x.
Proof.
  destruct (Qclt_le_dec x 0) as [H|H].
  - replace (x * x) with ((- x) * (- x)) by ring.
    assert (0 ≤ - x) as H'.
    { apply Qclt_le_weak, Qcopp_le_compat in H. exact H. }
    by apply Qcmult_nonneg_nonneg.
  - by apply Qcmult_nonneg_nonneg.
Qed.

Lemma Qc_square_zero (x : Qc) : x * x = 0 → x = 0.
Proof.
  intros H. destruct (decide (x = 0)) as [|Hx]; [done|].
  apply Qcmult_integral in H. tauto.
Qed.

(** X1: every form that get_weak_form returns is symmetric: exchanging the
    trial and the test function leaves its integrand unchanged, at every
    point. *)
Theorem weak_forms_symmetric (B : Backend) (V : FunctionSpace) (w w' : World)
    (a : Form) (p : Point) (args : Arguments_at) :
  get_weak_form B V w = (Ok a, w') →
  integrand p (swap_arguments args) a = integrand p args a.
Proof.
  rewrite get_weak_form_run. intros H.
  assert (∀ mu q, eval_expr p args mu = Some (TScalar q) →
            eval_expr p (swap_arguments args) mu = Some (TScalar q) →
            integrand p (swap_arguments args) (Elasticity_form V mu)
            = integrand p args (Elasticity_form V mu)) as Hel.
  { intros mu q H1 H2. unfold Elasticity_form. cbn. rewrite H1, H2. cbn.
    do 2 f_equal. apply sum_upto_ext; intros i _.
    apply sum_upto_ext; intros j _. ring. }
  destruct (kind (self w)).
  - simplify_eq. unfold H1_weak_form. cbn. do 2 f_equal.
    + apply sum_upto_ext; intros i _. apply sum_upto_ext; intros j _. ring.
    + apply sum_upto_ext; intros i _. ring.
  - simplify_eq. unfold Laplace_weak_form. cbn. f_equal.
    apply sum_upto_ext; intros i _. apply sum_upto_ext; intros j _. ring.
  - case_bool_decide; [simplify_eq; by apply (Hel _ 1)|].
    destruct (self_free_bids (self w)) as [free|]; [|done]. cbn zeta in H.
    destruct (fd_solve B _ _ _) as [dofs|e]; simplify_eq.
    by apply (Hel _ (pt_coef p (mu_space V) dofs)).
Qed.

Lemma weak_forms_symmetric_witness :
  integrand (centroid 2)
    (swap_arguments {| at_u := unit_vec 0; at_grad_u := λ i j, 1;
                       at_v := unit_vec 1; at_grad_v := λ i j, half |})
    (H1_weak_form (DG0 2))
  = integrand (centroid 2)
      {| at_u := unit_vec 0; at_grad_u := λ i j, 1;
         at_v := unit_vec 1; at_grad_v := λ i j, half |}
      (H1_weak_form (DG0 2)).
Proof.
  apply (weak_forms_symmetric dg0_backend (DG0 2)
           (fresh_world H1InnerProduct []) (fresh_world H1InnerProduct [])).
  reflexivity.
Defined.

(** X2: the H1 form is positive definite at every point: the integrand of
    a(u, u) is a sum of squares, and it vanishes only where every component
    of u (and of its gradient) vanishes. This is why H1InnerProduct declares
    no nullspace. *)
Theorem H1_form_positive_definite (V : FunctionSpace) (p : Point)
    (u : nat → Qc) (gu : nat → nat → Qc) :
  ∃ q,
    integrand p (same_arguments u gu) (H1_weak_form V) = Some q
    ∧ 0 ≤ q
    ∧ (q = 0 →
       ∀ i, (i < pt_dim p)%nat →
         u i = 0 ∧ ∀ j, (j < pt_dim p)%nat → gu i j = 0).
Proof.
  eexists. split; [reflexivity|].
  set (G := sum_upto (pt_dim p) (λ i, sum_upto (pt_dim p) (λ j, gu i j * gu i j))).
  set (U := sum_upto (pt_dim p) (λ i, u i * u i)).
  assert (∀ i, (i < pt_dim p)%nat →
            0 ≤ sum_upto (pt_dim p) (λ j, gu i j * gu i j)) as Hrow.
  { intros i _. apply sum_upto_nonneg. intros j _. apply Qc_square_nonneg. }
  assert (0 ≤ G) as HG by (by apply sum_upto_nonneg).
  assert (0 ≤ U) as HU.
  { apply sum_upto_nonneg. intros i _. apply Qc_square_nonneg. }
  split; [by apply Qcplus_nonneg_nonneg|].
  intros Hq.
  assert (G = 0 ∧ U = 0) as [HG0 HU0].
  { split; apply Qcle_antisym; try done.
    - rewrite <- Hq. rewrite <- (Qcplus_0_r G) at 1.
      by apply Qcplus_le_compat.
    - rewrite <- Hq. rewrite <- (Qcplus_0_l U) at 1.
      by apply Qcplus_le_compat. }
  intros i Hi. split.
  - apply Qc_square_zero.
    apply (sum_upto_zero_inv (pt_dim p) (λ i, u i * u i)); try done.
    intros k _. apply Qc_square_nonneg.
  - intros j Hj. apply Qc_square_zero.
    apply (sum_upto_zero_inv (pt_dim p) (λ j, gu i j * gu i j)); try done.
    + intros k _. apply Qc_square_nonneg.
    + by apply (sum_upto_zero_inv (pt_dim p)
                  (λ i, sum_upto (pt_dim p) (λ j, gu i j * gu i j))).
Qed.

(** X3: the fields that LaplaceInnerProduct.get_nullspace declares, two in
    dimension 2 and three in dimension 3, are the constant unit fields, and
    the Laplace form annihilates each of them: the integrand of a(b, v)
    vanishes for every test function v. *)
Theorem Laplace_nullspace_annihilated (V : FunctionSpace) (p : Point)
    (v : nat → Qc) (gv : nat → nat → Qc) :
  value_size V = 2%nat ∨ value_size V = 3%nat →
  ∃ fields,
    get_nullspace LaplaceInnerProduct V = Ok (Some fields)
    ∧ length fields = value_size V
    ∧ (∀ i b, fields !! i = Some b →
         ∃ c, fn_expr b = ConstantVec c
              ∧ length c = value_size V
              ∧ ∀ j, vget c j = if bool_decide (i = j) then 1 else 0)
    ∧ ∀ b, b ∈ fields →
        integrand_at p b v gv (Laplace_weak_form V) = Some 0.
Proof.
  assert (∀ c, integrand_at p (interpolate V (ConstantVec c)) v gv
                 (Laplace_weak_form V) = Some 0) as Hzero.
  { intros c. unfold integrand_at, Laplace_weak_form. cbn. f_equal.
    apply sum_upto_all_zero; intros i _.
    apply sum_upto_all_zero; intros j _. ring. }
  intros [HV|HV]; unfold get_nullspace, Laplace_nullspace; rewrite HV; cbn;
    eexists; (split; [reflexivity|]); (split; [reflexivity|]); split.
  - intros [|[|i]] b Hb; cbn in Hb; simplify_eq; cbn; eexists;
      (split; [reflexivity|]); (split; [reflexivity|]);
      intros [|[|[|j]]]; reflexivity.
  - intros b Hb.
    repeat (apply elem_of_cons in Hb as [->|Hb]); try apply Hzero.
    by apply elem_of_nil in Hb.
  - intros [|[|[|i]]] b Hb; cbn in Hb; simplify_eq; cbn; eexists;
      (split; [reflexivity|]); (split; [reflexivity|]);
      intros [|[|[|[|j]]]]; reflexivity.
  - intros b Hb.
    repeat (apply elem_of_cons in Hb as [->|Hb]); try apply Hzero.
    by apply elem_of_nil in Hb.
Qed.

Lemma Laplace_nullspace_annihilated_witness :
  ∃ fields,
    get_nullspace LaplaceInnerProduct (DG0 3) = Ok (Some fields)
    ∧ length fields = 3%nat.
Proof.
  destruct (Laplace_nullspace_annihilated (DG0 3) (centroid 3)
              (unit_vec 0) (λ _ _, 1))
    as (fields & H1 & H2 & _).
  - right. reflexivity.
  - exists fields. split; [exact H1 | exact H2].
Defined.

(** X4: in dimension 2 the three fields that the elasticity model declares,
    the two constants and the rotation [y, -x], are annihilated by the
    elasticity form with mu = 1. *)
Theorem elasticity_2d_nullspace_annihilated (V : FunctionSpace) (p : Point)
    (v : nat → Qc) (gv : nat → nat → Qc) :
  value_size V = 2%nat → pt_dim p = 2%nat →
  ∃ n1 n2 n3,
    get_nullspace ElasticityInnerProduct V = Ok (Some [n1; n2; n3])
    ∧ fn_expr n1 = ConstantVec [1; 0]
    ∧ fn_expr n2 = ConstantVec [0; 1]
    ∧ fn_expr n3 = as_vector [Coord 1; Neg (Coord 0)]
    ∧ ∀ b, b ∈ [n1; n2; n3] →
        integrand_at p b v gv (Elasticity_form V (Constant 1)) = Some 0.
Proof.
  intros HV Hp. eexists _, _, _.
  split; [by apply Elasticity_nullspace_2d|].
  split; [done|]. split; [done|]. split; [done|].
  apply (Elasticity_2d_annihilated V p _ v gv HV Hp).
  by apply Elasticity_nullspace_2d.
Qed.

Lemma elasticity_2d_nullspace_annihilated_witness :
  ∃ n3,
    (∃ l, get_nullspace ElasticityInnerProduct (DG0 2) = Ok (Some l)
          ∧ l !! 2%nat = Some n3)
    ∧ integrand_at (centroid 2) n3 (unit_vec 0) (λ _ _, 1)
        (Elasticity_form (DG0 2) (Constant 1)) = Some 0.
Proof.
  destruct (elasticity_2d_nullspace_annihilated (DG0 2) (centroid 2)
              (unit_vec 0) (λ _ _, 1))
    as (n1 & n2 & n3 & Hn & _ & _ & _ & Hz).
  - reflexivity.
  - reflexivity.
  - exists n3. split.
    + eexists. split; [exact Hn | reflexivity].
    + apply Hz. apply elem_of_cons. right. apply elem_of_cons. right.
      apply elem_of_cons. by left.
Defined.

(** ** get_impl: boundary ids, failures, constraints *)

Lemma list_remove_filter x l :
  NoDup l → x ∈ l → list_remove x l = Ok (filter (λ y, y ≠ x) l).
Proof.
  induction l as [|y t IH]; intros Hnd Hx; [by apply elem_of_nil in Hx|].
  inversion_clear Hnd as [|?? Hy Ht]. simpl. rewrite filter_cons.
  case_bool_decide as Hyx.
  - subst y. rewrite decide_False by (by intros ?). f_equal.
    clear IH Hx. induction t as [|z t IH]; [done|].
    rewrite filter_cons.
    apply not_elem_of_cons in Hy as [Hne Hy].
    inversion_clear Ht as [|?? Hz Ht'].
    rewrite decide_True by done. f_equal. by apply IH.
  - rewrite decide_True by done.
    apply elem_of_cons in Hx as [->|Hx]; [done|].
    by rewrite IH.
Qed.

Lemma remove_each_filter fixed : ∀ l,
  NoDup l → NoDup fixed → fixed ⊆ l →
  remove_each fixed l = Ok (filter (λ y, y ∉ fixed) l).
Proof.
  induction fixed as [|b t IH]; intros l Hl Hf Hsub; simpl.
  - f_equal. clear Hl Hsub. induction l as [|z l IHl]; [done|].
    rewrite filter_cons, decide_True by apply not_elem_of_nil.
    by rewrite <- IHl.
  - inversion_clear Hf as [|?? Hb Ht].
    rewrite list_remove_filter; [|done|apply Hsub; by left].
    rewrite IH; [|by apply list.NoDup_filter|done|].
    + f_equal. clear IH Hl Hsub. induction l as [|z l IHl]; [done|].
      rewrite !filter_cons.
      destruct (decide (z ≠ b)) as [Hz|Hz].
      * rewrite filter_cons.
        destruct (decide (z ∉ t)) as [Hzt|Hzt].
        -- rewrite decide_True; [by rewrite IHl|].
           rewrite not_elem_of_cons. done.
        -- rewrite decide_False; [done|].
           rewrite not_elem_of_cons. tauto.
      * rewrite decide_False; [done|].
        rewrite not_elem_of_cons. tauto.
    + intros x Hx. apply list_elem_of_filter. split.
      * intros ->. done.
      * apply Hsub. by right.
Qed.

(** X5: with distinct boundary markers and distinct valid fixed ids,
    get_impl leaves in [self.free_bids] the markers that are not fixed, in
    the order of the markers, whatever happens later in get_impl. *)
Theorem free_bids_are_the_other_markers (B : Backend) (V : FunctionSpace)
    (I : option Mat) (w : World) :
  let fixed := self_fixed_bids (self w) in
  let markers := unique_markers (mesh V) in
  NoDup markers → NoDup fixed → fixed ⊆ markers →
  self_free_bids (self (snd (get_impl B V I w)))
  = Some (filter (λ m, m ∉ fixed) markers).
Proof.
  intros fixed markers Hm Hf Hsub.
  apply get_impl_free_bids. by apply remove_each_filter.
Qed.

Lemma free_bids_are_the_other_markers_witness :
  self_free_bids (self (bound H1InnerProduct [2%Z] 2 None))
  = Some [1%Z; 3%Z].
Proof.
  apply (free_bids_are_the_other_markers dg0_backend (DG0 2) None
           (fresh_world H1InnerProduct [2%Z])).
  - by_compute.
  - by_compute.
  - by_compute.
Defined.

(** X6: when get_impl fails on a fixed id or on the dimension guard it has
    made no call into Firedrake or PETSc: the trace and the vectors are
    untouched and, of the attributes, only [free_bids] has changed, so an
    operator and a solver bound earlier stay in place. *)
Theorem get_impl_fails_before_any_call (B : Backend) (V : FunctionSpace)
    (I : option Mat) (w : World) :
  let fixed := self_fixed_bids (self w) in
  let markers := unique_markers (mesh V) in
  match remove_each fixed markers with
  | Raise _ =>
      ∃ l, get_impl B V I w
           = (Raise ValueError, with_self w (set_free_bids l (self w)))
  | Ok free =>
      value_size V ≠ 2%nat → value_size V ≠ 3%nat →
      fixed ≠ [] ∨ kind (self w) ≠ H1InnerProduct →
      get_impl B V I w
      = (Raise NotImplementedError, with_self w (set_free_bids free (self w)))
  end.
Proof.
  intros fixed markers.
  pose proof (stage_free_bids_run V w) as H1. fold fixed markers in H1.
  destruct (remove_each fixed markers) as [free|e].
  - intros H2 H3 Hcase. rewrite get_impl_staged.
    unfold staged_get_impl, bind at 1. rewrite H1.
    unfold bind at 1. rewrite stage_nullspace_of.
    cbn [with_self self kind set_free_bids]. unfold nullspace_of.
    fold fixed.
    destruct (decide (fixed = [])) as [Hf|Hf].
    + destruct Hcase as [|Hk]; [done|].
      rewrite bool_decide_eq_true_2 by done.
      destruct (kind (self w)); [done| |];
        unfold get_nullspace, Laplace_nullspace, Elasticity_nullspace;
        by rewrite !bool_decide_eq_false_2 by done.
    + rewrite bool_decide_eq_false_2 by done.
      rewrite log_world_nil.
      unfold bind at 1. rewrite stage_bc_run.
      by rewrite !bool_decide_eq_false_2 by done.
  - destruct H1 as [l H1]. exists l. rewrite get_impl_staged.
    unfold staged_get_impl. by rewrite (bind_raise _ _ _ _ _ H1).
Qed.

Lemma get_impl_fails_before_any_call_witness :
  (∃ l, get_impl dg0_backend (DG0 2) None (fresh_world H1InnerProduct [7%Z])
        = (Raise ValueError,
           with_self (fresh_world H1InnerProduct [7%Z])
             (set_free_bids l (self (fresh_world H1InnerProduct [7%Z])))))
  ∧ get_impl dg0_backend (DG0 4) None (fresh_world LaplaceInnerProduct [])
    = (Raise NotImplementedError,
       with_self (fresh_world LaplaceInnerProduct [])
         (set_free_bids [1%Z; 2%Z; 3%Z]
            (self (fresh_world LaplaceInnerProduct [])))).
Proof.
  split.
  - exact (get_impl_fails_before_any_call dg0_backend (DG0 2) None
             (fresh_world H1InnerProduct [7%Z])).
  - apply (get_impl_fails_before_any_call dg0_backend (DG0 4) None
             (fresh_world LaplaceInnerProduct [])).
    + vm_compute; lia.
    + vm_compute; lia.
    + right. discriminate.
Defined.

(** X7: a successful get_impl assembles the form once, either with a
    homogeneous Dirichlet condition or with a nullspace, never both: if
    [fixed_bids] is empty there is no boundary condition; otherwise the
    linear solver has no nullspace and the condition is on V, on exactly the
    ids of [fixed_bids], with a zero vector of as many components as the
    value dimension. *)
Theorem dirichlet_or_nullspace (B : Backend) (V : FunctionSpace)
    (I : option Mat) (w w1 : World) :
  get_impl B V I w = (Ok tt, w1) →
  let fixed := self_fixed_bids (self w) in
  ∃ a bc ls evs,
    trace w1 = trace w ++ evs
    ∧ EvAssemble a bc ∈ evs
    ∧ self_ls (self w1) = Some ls
    ∧ (fixed = [] → bc = None)
    ∧ (fixed ≠ [] →
       ls_nullspace ls = None
       ∧ ls_transpose_nullspace ls = None
       ∧ ∃ zeros,
           bc = Some (mkDirichletBC V (ConstantVec zeros) fixed)
           ∧ length zeros = value_size V
           ∧ ∀ z, z ∈ zeros → z = 0).
Proof.
  intros H fixed.
  destruct (get_impl_Ok _ _ _ _ _ H)
    as (free & nsp & bc & a & A0 & IJ & _ & Hnsp & Hbc & _ & _ & _ & ->).
  fold fixed in Hnsp, Hbc.
  eexists a, bc, (mkLinearSolver A0 (self_params (self w)) nsp nsp), _.
  split; [reflexivity|]. split.
  { unfold bind_events. rewrite !elem_of_app. right. right. left.
    apply elem_of_cons. by left. }
  split; [by destruct IJ as [[]|]|].
  unfold nullspace_of, bc_of in *. split.
  - intros Hf. rewrite bool_decide_eq_true_2 in Hbc by done. by simplify_eq.
  - intros Hf. rewrite bool_decide_eq_false_2 in Hnsp, Hbc by done.
    simplify_eq. cbn. split; [done|]. split; [done|].
    repeat case_bool_decide; simplify_eq; eexists;
      (split; [reflexivity|]); (split; [done|]);
      intros z Hz; repeat (apply elem_of_cons in Hz as [->|Hz]); try done;
      by apply elem_of_nil in Hz.
Qed.

Lemma dirichlet_or_nullspace_witness :
  ∃ ls, self_ls (self (bound LaplaceInnerProduct [1%Z] 2 None)) = Some ls
        ∧ ls_nullspace ls = None.
Proof.
  destruct (dirichlet_or_nullspace dg0_backend (DG0 2) None
              (fresh_world LaplaceInnerProduct [1%Z])
              (bound LaplaceInnerProduct [1%Z] 2 None))
    as (a & bc & ls & evs & _ & _ & Hls & _ & Hfix).
  - apply run_pair. vm_compute. reflexivity.
  - exists ls. split; [exact Hls|]. apply Hfix. discriminate.
Defined.

(** ** Before get_impl *)

(** X8: on an instance that __init__ has built and get_impl has not yet
    bound, eval and riesz_map raise AttributeError and change nothing. *)
Theorem unbound_instance_raises (B : Backend) (k : Kind) (fixed_bids : list Z)
    (h : gmap loc Vec) (tr : list Event) (u v out : loc) :
  let w := {| self := init k fixed_bids; heap := h; trace := tr |} in
  eval u v w = (Raise AttributeError, w)
  ∧ riesz_map B v out w = (Raise AttributeError, w).
Proof. intros w. by rewrite eval_run, riesz_map_run. Qed.

(** X9: get_weak_form of the elasticity model reads [self.free_bids], which
    only get_impl sets: called on a fresh instance with a fixed id it raises
    AttributeError without any solve; with no fixed id, and for the H1 and
    Laplace models, it returns the form and touches nothing. *)
Theorem get_weak_form_before_get_impl (B : Backend) (V : FunctionSpace)
    (k : Kind) (fixed_bids : list Z) (h : gmap loc Vec) (tr : list Event) :
  let w := {| self := init k fixed_bids; heap := h; trace := tr |} in
  get_weak_form B V w
  = match k with
    | H1InnerProduct => (Ok (H1_weak_form V), w)
    | LaplaceInnerProduct => (Ok (Laplace_weak_form V), w)
    | ElasticityInnerProduct =>
        match fixed_bids with
        | [] => (Ok (Elasticity_form V (Constant 1)), w)
        | _ :: _ => (Raise AttributeError, w)
        end
    end.
Proof.
  intros w. rewrite get_weak_form_run. destruct k; try done.
  cbn [self init kind self_fixed_bids self_free_bids w].
  by destruct fixed_bids.
Qed.

(** ** The patched operator has no row close to zero *)

Lemma norm_sq_nonneg (l : Vec) : 0 ≤ norm_sq l.
Proof.
  induction l as [|x l IH]; simpl; [done|].
  apply Qcplus_nonneg_nonneg; [apply Qc_square_nonneg | done].
Qed.

Lemma norm_sq_ge (l : Vec) (x : Qc) : x ∈ l → x * x ≤ norm_sq l.
Proof.
  induction l as [|y l IH]; intros Hx; [by apply elem_of_nil in Hx|].
  simpl. apply elem_of_cons in Hx as [->|Hx].
  - rewrite <- (Qcplus_0_r (y * y)) at 1.
    apply Qcplus_le_compat; [apply Qcle_refl | apply norm_sq_nonneg].
  - rewrite <- (Qcplus_0_l (x * x)).
    apply Qcplus_le_compat; [apply Qc_square_nonneg | by apply IH].
Qed.

Lemma patched_row_not_near_zero J i :
  stash J = [] → nrows J = ncols J → (i < nrows J)%nat →
  near_zero_row (patched J) i = false.
Proof.
  intros Hs Hsq Hi. destruct (patched_shape J) as (Hr & Hc & _).
  destruct (near_zero_row J i) eqn:Hz.
  - unfold near_zero_row, norm_lt, getRow. cbn [snd].
    apply bool_decide_eq_false_2, Qcle_not_lt.
    apply Qcle_trans with (1 * 1).
    + apply Qclt_le_weak. reflexivity.
    + apply norm_sq_ge. apply list_elem_of_fmap.
      exists i. split.
      * rewrite patched_entry by done.
        by rewrite bool_decide_eq_true_2.
      * apply elem_of_seq. rewrite Hc. lia.
  - rewrite <- Hz. unfold near_zero_row, getRow. cbn [snd]. rewrite Hc.
    f_equal. apply map_ext. intros j. rewrite patched_entry by done.
    rewrite bool_decide_eq_false_2; [done|]. rewrite Hz. by intros (_ & _ & ?).
Qed.

Lemma filter_none {A} (P : A → Prop) `{∀ x, Decision (P x)} (l : list A) :
  (∀ x, x ∈ l → ¬ P x) → filter P l = [].
Proof.
  induction l as [|x l IH]; intros Hl; [done|].
  rewrite filter_cons, decide_False by (apply Hl; by left).
  apply IH. intros y Hy. apply Hl. by right.
Qed.

(** X10: after a successful get_impl with an interpolation matrix, no row
    of the operator [self.A] has a 2-norm below 1e-13: the rows that were
    close to zero now carry 1 on the diagonal and the others are as PtAP
    gave them. Running the detection loop again finds nothing. *)
Theorem no_near_zero_row_after_patch (B : Backend) (V : FunctionSpace)
    (P : Mat) (w w1 : World) :
  get_impl B V (Some P) w = (Ok tt, w1) →
  ∃ A,
    self_A (self w1) = Some A
    ∧ nrows A = ncols P ∧ ncols A = ncols P
    ∧ (∀ i, (i < nrows A)%nat → near_zero_row A i = false)
    ∧ find_zero_rows A = [].
Proof.
  intros H.
  destruct (get_impl_Ok_Some _ _ _ _ _ H)
    as (free & nsp & bc & a & A0 & J & _ & _ & _ & _ & _ & HJ & _ & ->).
  apply PtAP_Ok in HJ as (_ & _ & _ & Hr & Hc & Hs & _).
  destruct (patched_shape J) as (Hr' & Hc' & _).
  exists (patched J). split; [done|].
  split; [by rewrite Hr'|]. split; [by rewrite Hc'|].
  assert (∀ i, (i < nrows (patched J))%nat →
               near_zero_row (patched J) i = false) as Hrows.
  { intros i Hi. apply patched_row_not_near_zero; [done|congruence|lia]. }
  split; [done|].
  rewrite find_zero_rows_filter. apply filter_none.
  intros k Hk. apply elem_of_seq in Hk. rewrite Hrows; [done|lia].
Qed.

Lemma no_near_zero_row_after_patch_witness :
  ∃ A,
    self_A (self (bound H1InnerProduct [] 2 (Some first_only))) = Some A
    ∧ find_zero_rows A = [].
Proof.
  destruct (no_near_zero_row_after_patch dg0_backend (DG0 2) first_only
              (fresh_world H1InnerProduct [])
              (bound H1InnerProduct [] 2 (Some first_only)))
    as (A & HA & _ & _ & _ & Hz).
  - apply run_pair. vm_compute. reflexivity.
  - exists A. split; [exact HA | exact Hz].
Defined.

(** ** riesz_map and eval together *)

Lemma riesz_map_solution B V I w w1 w2 v out :
  get_impl B V I w = (Ok tt, w1) →
  riesz_map B v out w1 = (Ok tt, w2) →
  (∀ ls b x, ls_solve B ls b = Ok x → mult (ls_A ls) x = Ok b) →
  (∀ k A b x, ksp_operators k = Some A → ksp_solve B k b = Ok x →
              mult A x = Ok b) →
  ∃ A b x,
    self_A (self w1) = Some A
    ∧ heap w1 !! v = Some b
    ∧ is_Some (heap w1 !! out)
    ∧ mult A x = Ok b
    ∧ self w2 = self w1
    ∧ heap w2 = <[out := x]> (heap w1).
Proof.
  intros H Hr Hls Hksp.
  destruct (bound_operator _ _ _ _ _ H) as (ls & A & Hsls & HA & HI).
  destruct (riesz_map_Ok _ _ _ _ _ Hr)
    as (i & b & x & Hi & Hv & Ho & Hsolve & ->).
  exists A, b, x. repeat split; try done.
  destruct I as [P|].
  - destruct HI as (Hi' & J & Aksp & _ & _ & Hk & Hop).
    rewrite Hi in Hi'. simplify_eq.
    destruct Hsolve as (k & Hk' & Hs). rewrite Hk in Hk'. simplify_eq.
    by apply (Hksp k).
  - destruct HI as (Hi' & ->).
    rewrite Hi in Hi'. simplify_eq.
    destruct Hsolve as (ls' & Hls' & Hs). rewrite Hsls in Hls'. simplify_eq.
    by apply Hls.
Qed.

(** X11: what riesz_map writes is the Riesz representative of v: when the
    solvers return solutions, after riesz_map(v, out) on a bound instance
    eval(out, z) is the plain dot product of z with the content v had, for
    every vector z. *)
Theorem riesz_representative (B : Backend) (V : FunctionSpace)
    (I : option Mat) (w w1 w2 : World) (v out z : loc) (b zvec : Vec) :
  get_impl B V I w = (Ok tt, w1) →
  heap w1 !! v = Some b →
  riesz_map B v out w1 = (Ok tt, w2) →
  heap w2 !! z = Some zvec →
  (∀ ls b x, ls_solve B ls b = Ok x → mult (ls_A ls) x = Ok b) →
  (∀ k A b x, ksp_operators k = Some A → ksp_solve B k b = Ok x →
              mult A x = Ok b) →
  fst (eval out z w2) = dot zvec b.
Proof.
  intros H Hv Hr Hz Hls Hksp.
  destruct (riesz_map_solution _ _ _ _ _ _ _ _ H Hr Hls Hksp)
    as (A & b' & x & HA & Hv' & Ho & Hx & Hself & Hheap).
  rewrite Hv in Hv'. simplify_eq.
  rewrite eval_fst, Hself, HA. cbn zeta.
  assert (heap w2 !! out = Some x) as Hout
    by (by rewrite Hheap, lookup_insert_eq).
  rewrite !lookup_insert_ne.
  - rewrite Hout, Hz. unfold eval_result. by rewrite Hx.
  - intros Heq. rewrite <- Heq, fresh_loc_None in Hz. done.
  - intros Heq. rewrite <- Heq, fresh_loc_None in Hout. done.
Qed.

Lemma riesz_representative_witness :
  fst (eval 3 2 (snd (riesz_map dg0_backend 1 3
                        (bound H1InnerProduct [] 2 None))))
  = dot [0; Q2Qc 2] [Q2Qc 2; 0].
Proof.
  apply (riesz_representative dg0_backend (DG0 2) None
           (fresh_world H1InnerProduct [])
           (bound H1InnerProduct [] 2 None)
           (snd (riesz_map dg0_backend 1 3 (bound H1InnerProduct [] 2 None)))
           1%positive 3%positive 2%positive).
  - apply run_pair. vm_compute. reflexivity.
  - reflexivity.
  - apply run_pair. vm_compute. reflexivity.
  - by_compute.
  - intros ls b x. apply checked_solve_exact.
  - intros k A b x Hk. cbn. rewrite Hk. apply checked_solve_exact.
Defined.

(** X12: riesz_map(v, out) changes the content of out and nothing else:
    [self], the set of vectors and every other vector stay as they were
    (v too, unless it is out itself), and when riesz_map raises no vector
    has changed at all. *)
Theorem riesz_map_writes_only_out (B : Backend) (v out : loc) (w w2 : World)
    (r : result unit) :
  riesz_map B v out w = (r, w2) →
  self w2 = self w
  ∧ dom (heap w2) = dom (heap w)
  ∧ (∀ x, x ≠ out → heap w2 !! x = heap w !! x)
  ∧ (∀ e, r = Raise e → heap w2 = heap w).
Proof.
  rewrite riesz_map_run. intros H.
  assert (∀ evs, self (log_world w evs) = self w
                 ∧ dom (heap (log_world w evs)) = dom (heap w)
                 ∧ (∀ y, y ≠ out → heap (log_world w evs) !! y = heap w !! y)
                 ∧ (∀ e, r = Raise e → heap (log_world w evs) = heap w))
    as Hsame by done.
  assert (∀ e, (Raise e, w) = (r, w2) →
            self w2 = self w ∧ dom (heap w2) = dom (heap w)
            ∧ (∀ y, y ≠ out → heap w2 !! y = heap w !! y)
            ∧ (∀ e, r = Raise e → heap w2 = heap w)) as Hfail.
  { intros e He. by simplify_eq. }
  destruct (self_interpolated (self w)) as [i|]; [|by apply (Hfail _ H)].
  cbn zeta in H.
  destruct (if i then _ else _) as [[ev solve]|]; [|by apply (Hfail _ H)].
  destruct (heap w !! v) as [b|]; [|by apply (Hfail _ H)].
  destruct (solve b) as [sol|e];
    [|injection H as <- <-; apply Hsame].
  destruct (heap w !! out) as [old|] eqn:Ho;
    [|injection H as <- <-; apply Hsame].
  injection H as <- <-. cbn. split; [done|]. split; [|split].
  - rewrite dom_insert_L. apply elem_of_dom_2 in Ho.
    apply set_eq. intros y. rewrite elem_of_union, elem_of_singleton.
    split; [intros [->|]; done | auto].
  - intros y Hy. by rewrite lookup_insert_ne.
  - by intros e ?.
Qed.

Lemma riesz_map_writes_only_out_witness :
  heap (snd (riesz_map dg0_backend 1 3 (bound H1InnerProduct [] 2 None)))
    !! 1%positive
  = heap (bound H1InnerProduct [] 2 None) !! 1%positive.
Proof.
  destruct (riesz_map_writes_only_out dg0_backend 1%positive 3%positive
              (bound H1InnerProduct [] 2 None)
              (snd (riesz_map dg0_backend 1 3 (bound H1InnerProduct [] 2 None)))
              (Ok tt))
    as (_ & _ & H & _).
  - apply run_pair. vm_compute. reflexivity.
  - apply H. discriminate.
Defined.

(** ** Binding again *)

(** X13: get_impl sets every attribute it later reads: its outcome and the
    attributes free_bids, ls, A and interpolated that it leaves depend only
    on the model, [fixed_bids] and the solver parameters of the instance,
    not on what an earlier get_impl left. Aksp is set again when an
    interpolation matrix is given; without one it is left as it was, and
    riesz_map does not use it since [interpolated] is False. *)
Theorem get_impl_ignores_earlier_binding (B : Backend) (V : FunctionSpace)
    (I : option Mat) (w w' w1 : World) :
  kind (self w') = kind (self w) →
  self_fixed_bids (self w') = self_fixed_bids (self w) →
  self_params (self w') = self_params (self w) →
  get_impl B V I w = (Ok tt, w1) →
  ∃ w1',
    get_impl B V I w' = (Ok tt, w1')
    ∧ self_free_bids (self w1') = self_free_bids (self w1)
    ∧ self_ls (self w1') = self_ls (self w1)
    ∧ self_A (self w1') = self_A (self w1)
    ∧ self_interpolated (self w1') = self_interpolated (self w1)
    ∧ match I with
      | Some _ => self_Aksp (self w1') = self_Aksp (self w1)
      | None =>
          self_Aksp (self w1') = self_Aksp (self w')
          ∧ self_interpolated (self w1') = Some false
      end.
Proof.
  intros Hk Hf Hp H.
  destruct (get_impl_Ok _ _ _ _ _ H)
    as (free & nsp & bc & a & A0 & IJ & Hfree & Hnsp & Hbc & Ha & HA0 & HI
        & ->).
  pose proof (get_impl_fst B V I w') as Hfst. cbn zeta in Hfst.
  rewrite Hk, Hf, Hfree, Hnsp, Hbc, Ha, HA0 in Hfst.
  assert (fst (get_impl B V I w') = Ok tt) as Hok.
  { rewrite Hfst. destruct I as [P|], IJ as [[P' J]|]; try done.
    destruct HI as (-> & -> & ->). done. }
  apply run_pair in Hok. eexists. split; [exact Hok|].
  destruct (get_impl_Ok _ _ _ _ _ Hok)
    as (free' & nsp' & bc' & a' & A0' & IJ' & Hfree' & Hnsp' & Hbc' & Ha'
        & HA0' & HI' & Hw).
  cbn zeta in Hfree', Hnsp', Hbc', Ha'.
  rewrite ?Hk, ?Hf in Hfree', Hnsp', Hbc', Ha'.
  assert (free' = free) as -> by congruence.
  assert (nsp' = nsp) as -> by congruence.
  assert (bc' = bc) as -> by congruence.
  assert (a' = a) as -> by congruence.
  assert (A0' = A0) as -> by congruence.
  rewrite Hw. unfold bound_self. cbn [with_self self]. rewrite Hp.
  destruct I as [P|], IJ as [[P1 J]|], IJ' as [[P2 J']|]; try done.
  destruct HI as (-> & HJ & _), HI' as (-> & HJ' & _).
  rewrite HJ in HJ'. by simplify_eq.
Qed.

Lemma get_impl_ignores_earlier_binding_witness :
  ∃ w1',
    get_impl dg0_backend (DG0 2) None
      (bound H1InnerProduct [] 2 (Some first_only)) = (Ok tt, w1')
    ∧ self_A (self w1') = self_A (self (bound H1InnerProduct [] 2 None))
    ∧ self_Aksp (self w1')
      = self_Aksp (self (bound H1InnerProduct [] 2 (Some first_only))).
Proof.
  destruct (get_impl_ignores_earlier_binding dg0_backend (DG0 2) None
              (fresh_world H1InnerProduct [])
              (bound H1InnerProduct [] 2 (Some first_only))
              (bound H1InnerProduct [] 2 None))
    as (w1' & H1 & _ & _ & H2 & _ & H3 & _).
  - reflexivity.
  - reflexivity.
  - reflexivity.
  - apply run_pair. vm_compute. reflexivity.
  - exists w1'. split; [exact H1|]. split; [exact H2 | exact H3].
Defined.
